(** * coro pipeline core: Buffer, capability negotiation, linking, AlsaSink stop

    A shallow embedding of
      - [coro::core::Buffer]   (core/Buffer.cpp),
      - [coro::core::Node]     (include/coro/core/Node.h),
      - [coro::audio::AlsaSink::onStop] (src/audio/AlsaSink.cpp),
    together with the properties the specification states about them.

    Conventions.  [size_t] is a 64-bit unsigned integer, modelled as [Z] with
    the wrap-around of every addition and subtraction written out.  A
    [std::vector<uint8_t>] is a [list byte]; a [uint8_t*] into the storage of a
    vector is the index of the byte it designates, counted from
    [m_buffer.data()].  Allocation is assumed to succeed ([std::bad_alloc] and
    [std::length_error] are not modelled). *)

From Stdlib Require Import ZArith Lia Bool Init.Byte Ascii String.
From stdpp Require Import base option list gmap.

Local Open Scope Z_scope.

(** ** [size_t] arithmetic *)

Module SizeT.

Definition bits : Z := 64.
Definition modulus : Z := 2 ^ bits.

(** [std::vector<uint8_t>::max_size()] on an LP64 target. *)
Definition max_size : Z := 2 ^ 63 - 1.

Definition wrap (z : Z) : Z := z mod modulus.
Definition add (a b : Z) : Z := wrap (a + b).
Definition sub (a b : Z) : Z := wrap (a - b).

Definition in_range (z : Z) : Prop := 0 <= z < modulus.

End SizeT.

(** ** Raw memory: the bytes of one allocation, read and written by index *)

Module Mem.

Definition vsize (v : list byte) : Z := Z.of_nat (length v).

(** [std::vector::resize]: keeps the first [n] elements, value-initialises
    (zero) the new ones. *)
Definition resize (v : list byte) (n : Z) : list byte :=
  take (Z.to_nat n) v ++ replicate (Z.to_nat n - length v)%nat x00.

(** Reading [n] bytes at index [p]; [None] when the range leaves the
    allocation (undefined behaviour in the source). *)
Definition load (v : list byte) (p n : Z) : option (list byte) :=
  if (0 <=? p) && (0 <=? n) && (p + n <=? vsize v)
  then Some (take (Z.to_nat n) (drop (Z.to_nat p) v))
  else None.

(** Writing the bytes [bs] at index [p] (what a caller does through the
    pointer returned by [acquire], and what [memcpy] does). *)
Definition store (v : list byte) (p : Z) (bs : list byte) : option (list byte) :=
  if (0 <=? p) && (p + vsize bs <=? vsize v)
  then Some (take (Z.to_nat p) v ++ bs ++ drop (Z.to_nat p + length bs)%nat v)
  else None.

End Mem.

(** ** [coro::core::Buffer] *)

Module Buffer.

Import Mem.

Record t : Type := mk {
  m_buffer : list byte;          (* std::vector<uint8_t> *)
  m_size : Z;                    (* size_t *)
  m_offset : Z;                  (* size_t *)
  m_acquiredOffset : Z           (* size_t *)
}.

Definition set_buffer (v : list byte) (b : t) : t :=
  mk v (m_size b) (m_offset b) (m_acquiredOffset b).
Definition set_size (n : Z) (b : t) : t :=
  mk (m_buffer b) n (m_offset b) (m_acquiredOffset b).
Definition set_offset (n : Z) (b : t) : t :=
  mk (m_buffer b) (m_size b) n (m_acquiredOffset b).
Definition set_acquiredOffset (n : Z) (b : t) : t :=
  mk (m_buffer b) (m_size b) (m_offset b) n.

(** Modelled from the spec: the class declaration (core/Buffer.h), with the
    default member initialisers, is not among the sources.  The committed
    region of a fresh buffer is what the constructor copied to the start of
    the storage, so [m_offset] and [m_acquiredOffset] start at [0]: the only
    value under which the second constructor, which copies the data to
    [m_buffer.data()] and sets [m_size], makes [data()] designate the bytes
    it copied. *)
Definition default_members : t := mk [] 0 0 0.

(** [Buffer::Buffer(size_t size)] *)
Definition Buffer (size : Z) : t :=
  let b := set_buffer (resize (m_buffer default_members) size) default_members in
  set_size 0 b.

(** [Buffer::Buffer(const uint8_t* data, size_t size, size_t reservedSize)].
    The pointer [data] is given as the allocation [src] it points into and
    the index [p] in it; [memcpy] reads [size] bytes there. *)
Definition Buffer_copy (src : list byte) (p : Z) (size reservedSize : Z)
  : option t :=
  let b := set_buffer (resize (m_buffer default_members)
                              (Z.max size reservedSize)) default_members in
  let b := set_size size b in
  bytes ← load src p size;
  v ← store (m_buffer b) 0 bytes;
  Some (set_buffer v b).

(** [Buffer::data()]: the pointer [m_buffer.data()+m_offset]. *)
Definition data (b : t) : Z := m_offset b.

(** [Buffer::size()] *)
Definition size (b : t) : Z := m_size b.

(** [m_buffer.size()] *)
Definition capacity (b : t) : Z := vsize (m_buffer b).

(** [Buffer::acquire]: the returned pointer and the buffer afterwards. *)
Definition acquire (size : Z) (b : t) : Z * t :=
  (* If we have space in front *)
  if m_offset b >=? size then (0, b)
  else
    (* If we have space at back *)
    let sizeAtBack :=
      SizeT.sub (SizeT.sub (vsize (m_buffer b)) (m_offset b)) (m_size b) in
    if sizeAtBack >=? size then
      let b := set_acquiredOffset (SizeT.add (m_offset b) (m_size b)) b in
      (m_acquiredOffset b, b)
    else
      (* Create space *)
      let b := set_buffer
                 (resize (m_buffer b)
                    (SizeT.add (SizeT.sub (vsize (m_buffer b)) sizeAtBack) size))
                 b in
      let b := set_acquiredOffset (SizeT.add (m_offset b) (m_size b)) b in
      (m_acquiredOffset b, b).

(** [Buffer::commit] *)
Definition commit (size : Z) (b : t) : t :=
  let b := set_offset (m_acquiredOffset b) b in
  set_size size b.

(** [Buffer::split<T>].  [T] is a template parameter of the source; its
    constructor [T(const uint8_t*, size_t)] is the parameter [make], which
    receives the pointer [m_buffer.data()+m_offset+i] as an index into this
    buffer's storage.  The counter [i] is a [size_t] and wraps.  The loop
    may not terminate ([size = 0]), so it runs on fuel: [None] is "still
    running". *)
Section Split.
Context {T : Type} (make : Z -> Z -> T).

Fixpoint split_loop (fuel : nat) (b : t) (size i : Z) : option (list T) :=
  match fuel with
  | O => None
  | S fuel =>
      if i <? m_size b then
        let x := make (m_offset b + i) size in
        rest ← split_loop fuel b size (SizeT.add i size);
        Some (x :: rest)
      else Some []
  end.

Definition split (fuel : nat) (size : Z) (b : t) : option (list T) :=
  split_loop fuel b size 0.
End Split.

(** *** What clients do with a buffer *)

(** Writing bytes through a pointer into the storage (as a stage does with
    the pointer [acquire] returned). *)
Definition write (p : Z) (bs : list byte) (b : t) : option t :=
  v ← store (m_buffer b) p bs; Some (set_buffer v b).

(** Reading the committed view: [size()] bytes at [data()]. *)
Definition committed (b : t) : option (list byte) :=
  load (m_buffer b) (data b) (size b).

(** Modelled from the spec: [coro::audio::AudioBuffer], the chunk type
    [split] is instantiated with in Buffer.cpp, is declared in
    audio/AudioBuffer.h, which is not among the sources.  The spec knows one
    buffer abstraction, so a chunk is built as [Buffer(data, size)] builds
    it, with [reservedSize] at [0].  A chunk is [None] when building it
    reads outside the storage of the buffer being split. *)
Definition AudioBuffer (storage : list byte) (p size : Z) : option t :=
  Buffer_copy storage p size 0.

Definition split_AudioBuffer (fuel : nat) (size : Z) (b : t)
  : option (list (option t)) :=
  split (AudioBuffer (m_buffer b)) fuel size b.

(** The bytes a list of chunks holds, in order; [None] if a chunk could not
    be built. *)
Fixpoint chunk_bytes (chunks : list (option t)) : option (list byte) :=
  match chunks with
  | [] => Some []
  | c :: rest =>
      c ← c;
      bs ← committed c;
      tl ← chunk_bytes rest;
      Some (bs ++ tl)
  end.

(** *** Well-formedness *)

(** Every member is a [size_t] value. *)
Definition in_range (b : t) : Prop :=
  SizeT.in_range (m_size b) /\ SizeT.in_range (m_offset b) /\
  SizeT.in_range (m_acquiredOffset b) /\ vsize (m_buffer b) <= SizeT.max_size.

(** The committed region lies within the allocated storage. *)
Definition contained (b : t) : Prop :=
  m_offset b + size b <= capacity b.

(** *** Sequences of calls *)

Inductive call : Type :=
| Acquire (n : Z)
| Commit (n : Z).

Definition do_call (b : t) (c : call) : t :=
  match c with
  | Acquire n => snd (acquire n b)
  | Commit n => commit n b
  end.

Definition run (calls : list call) (b : t) : t := fold_left do_call calls b.

Definition call_arg (c : call) : Z :=
  match c with Acquire n | Commit n => n end.

(** Buffers reachable by any sequence of constructor, acquire and commit
    calls, with [size_t] arguments. *)
Inductive reachable : t -> Prop :=
| reach_Buffer n calls :
    SizeT.in_range n ->
    Forall (fun c => SizeT.in_range (call_arg c)) calls ->
    reachable (run calls (Buffer n))
| reach_Buffer_copy src p n r calls b :
    SizeT.in_range n -> SizeT.in_range r ->
    Buffer_copy src p n r = Some b ->
    Forall (fun c => SizeT.in_range (call_arg c)) calls ->
    reachable (run calls b).

(** Buffers reached by following the reservation protocol, kept together
    with the grant that is pending: after [acquire m] was served behind the
    committed region (from the space at the back, or by growing) the grant
    is [Some m]; a [commit n] finalises a pending grant [Some m] with
    [n <= m]; the caller may write into the storage at any time.  Requests
    stay within what the vector can allocate. *)
Inductive protocol : option Z -> t -> Prop :=
| proto_Buffer n :
    0 <= n <= SizeT.max_size -> protocol None (Buffer n)
| proto_Buffer_copy src p n r b :
    0 <= n <= SizeT.max_size -> 0 <= r <= SizeT.max_size ->
    Buffer_copy src p n r = Some b -> protocol None b
| proto_acquire g b m :
    protocol g b -> 0 <= m ->
    m_offset b + m_size b + m <= SizeT.max_size ->
    protocol (if m_offset b >=? m then None else Some m) (snd (acquire m b))
| proto_write g b p bs b' :
    protocol g b -> write p bs b = Some b' -> protocol g b'
| proto_commit m b n :
    protocol (Some m) b -> 0 <= n <= m -> protocol None (commit n b).

(** What a stage does to produce [bs]: reserve room for it, write it
    through the returned pointer, publish it. *)
Definition acquire_write_commit (bs : list byte) (b : t) : option t :=
  let n := vsize bs in
  let '(p, b1) := acquire n b in
  b2 ← write p bs b1;
  Some (commit n b2).

(** A buffer as two production steps leave it: 4 bytes, then 8 bytes. *)
Definition after_two_steps : option t :=
  b ← acquire_write_commit [x01; x02; x03; x04] (Buffer 0);
  acquire_write_commit [x05; x06; x07; x08; x09; x0a; x0b; x0c] b.

(** A sample buffer: 12 bytes of storage, bytes 4..7 committed. *)
Definition sample : t :=
  mk [x01; x02; x03; x04; x05; x06; x07; x08; x09; x0a; x0b; x0c] 4 4 4.

(** The invariant the protocol maintains: members in range, committed
    region inside the storage, and a pending grant inside the storage at
    the recorded offset. *)
Definition protocol_inv (g : option Z) (b : t) : Prop :=
  in_range b /\ contained b /\
  match g with
  | Some m => 0 <= m /\ m_acquiredOffset b + m <= capacity b
  | None => True
  end.

(** The number of chunks: [size()] divided by the chunk size, rounded up. *)
Definition chunk_count (S c : Z) : Z := (S + c - 1) / c.

(** The round trip of [split] as the specification words it: [split c]
    finishes with chunks whose bytes, concatenated, are the committed
    bytes. *)
Definition split_reproduces (c : Z) (b : t) : Prop :=
  exists fuel chunks,
    split_AudioBuffer fuel c b = Some chunks /\
    chunk_bytes chunks = committed b.

(** Three committed bytes in a storage of four. *)
Definition three_of_four : t := mk [x01; x02; x03; x00] 3 0 0.

End Buffer.

(** ** [coro::core::Node]: capability negotiation and linking *)

Module Node.

Section Negotiation.
(** [Caps::intersect] and the [isValid] of its result are declared in
    core/Caps.h, which is not among the sources: they are parameters. *)
Context {Cap R : Type} (intersect : Cap -> Cap -> R) (isValid : R -> bool).

(** The inner loop of [canIntersect]: [for (const auto& o : out)]. *)
Fixpoint canIntersect_inner (i : Cap) (out : list Cap) : bool :=
  match out with
  | [] => false
  | o :: out =>
      if isValid (intersect i o) then true
      else canIntersect_inner i out
  end.

(** [Node::canIntersect(in, out)]. *)
Fixpoint canIntersect (in_ out : list Cap) : bool :=
  match in_ with
  | [] => false
  | i :: in_ =>
      if canIntersect_inner i out then true
      else canIntersect in_ out
  end.

(** The same two loops, keeping the pairs handed to [intersect] in the
    order they are examined. *)
Fixpoint examine_inner (i : Cap) (out : list Cap)
  : bool * list (Cap * Cap) :=
  match out with
  | [] => (false, [])
  | o :: out =>
      if isValid (intersect i o) then (true, [(i, o)])
      else
        let '(r, seen) := examine_inner i out in
        (r, (i, o) :: seen)
  end.

Fixpoint examine (in_ out : list Cap) : bool * list (Cap * Cap) :=
  match in_ with
  | [] => (false, [])
  | i :: in_ =>
      let '(r, seen) := examine_inner i out in
      if r then (true, seen)
      else
        let '(r', seen') := examine in_ out in
        (r', seen ++ seen')
  end.

(** All pairs across two sets, in declaration order. *)
Definition pairs (in_ out : list Cap) : list (Cap * Cap) :=
  flat_map (fun i => map (pair i) out) in_.

Definition intersects (x : Cap * Cap) : Prop :=
  isValid (intersect (fst x) (snd x)) = true.

(** [seen] is how far the loops went through [all] before answering [r]:
    an initial part of [all]; on [true] it ends with an intersecting
    pair and holds none before it, on [false] it is the whole of [all]
    and holds none. *)
Definition decided_by (all : list (Cap * Cap)) (r : bool)
           (seen : list (Cap * Cap)) : Prop :=
  exists rest,
    all = seen ++ rest /\
    if r then
      exists before x,
        seen = before ++ [x] /\ intersects x /\
        Forall (fun y => ~ intersects y) before
    else rest = [] /\ Forall (fun y => ~ intersects y) seen.

(** *** Stages and links *)

(** What a stage class declares statically: [outCaps()] and [inCaps()],
    each a [std::array] of capabilities, absent where the class declares
    none. *)
Record NodeClass : Type := {
  outCaps : option (list Cap);
  inCaps : option (list Cap)
}.

(** A stage object: its class and the member [Node* m_next]. *)
Record t : Type := mk {
  class_of : NodeClass;
  m_next : option nat
}.

Definition set_next (n : option nat) (x : t) : t := mk (class_of x) n.

(** [Node::link(prev, next)] on the store of stage objects, addressed by
    [nat].  The overload exists only if the [enable_if_t] condition
    holds: both arguments are stages, and
    [canIntersect(Node1::outCaps(), Node2::inCaps())]; the call has a
    meaning only if both capability arrays exist and have one type [T]
    (the same length).  [None] is "does not compile". *)
Definition link (prev next : nat) (h : gmap nat t) : option (gmap nat t) :=
  n1 ← h !! prev;
  n2 ← h !! next;
  out ← outCaps (class_of n1);
  inc ← inCaps (class_of n2);
  if bool_decide (length out = length inc) && canIntersect out inc
  then Some (<[prev := set_next (Some next) n1]> h)
  else None.

End Negotiation.

Arguments NodeClass : clear implicits.
Arguments t : clear implicits.
Arguments mk {Cap}.
Arguments class_of {Cap}.
Arguments m_next {Cap}.
Arguments set_next {Cap}.
Arguments outCaps {Cap}.
Arguments inCaps {Cap}.

End Node.

(** ** Audio capabilities *)

Module AudioCaps.

(** Modelled from the spec: the enumerations (audio/AudioTypes.h) are not
    among the sources; their members here are the ones the sources and the
    spec mention. *)
Inductive AudioCodec : Type := RawInt16 | RawFloat32 | Ac3.
Inductive SampleRate : Type := Rate44100 | Rate48000.
Inductive Channels : Type := Mono | Stereo.

Global Instance AudioCodec_eq_dec : EqDecision AudioCodec.
Proof. solve_decision. Defined.
Global Instance SampleRate_eq_dec : EqDecision SampleRate.
Proof. solve_decision. Defined.
Global Instance Channels_eq_dec : EqDecision Channels.
Proof. solve_decision. Defined.

(** Modelled from the spec: the capability type (audio/AudioCaps.h) and
    [Caps::intersect] (core/Caps.h) are not among the sources.  A
    capability constrains codec, sample rate and channel layout; any field
    may be unspecified ([None]) and then matches anything. *)
Record t : Type := mk {
  codec : option AudioCodec;
  rate : option SampleRate;
  channels : option Channels
}.

(** Modelled from the spec: one field of [intersect]; an unspecified side
    matches anything, two constrained sides must agree. *)
Definition intersect_field {A : Type} `{EqDecision A}
           (x y : option A) : option (option A) :=
  match x, y with
  | None, _ => Some y
  | _, None => Some x
  | Some a, Some b => if decide (a = b) then Some (Some a) else None
  end.

(** Modelled from the spec: [intersect] matches field by field and returns
    the most specific merged capability, or nothing (Invalid) when a field
    disagrees. *)
Definition intersect (a b : t) : option t :=
  c ← intersect_field (codec a) (codec b);
  r ← intersect_field (rate a) (rate b);
  ch ← intersect_field (channels a) (channels b);
  Some (mk c r ch).

Definition isValid (r : option t) : bool :=
  match r with Some _ => true | None => false end.

(** The capability array of [AirPlay2Source::outCaps()]
    (include/coro/airplay/AirPlaySource.h). *)
Definition AirPlay2Source_outCaps : list t :=
  [mk (Some RawInt16) (Some Rate44100) (Some Stereo)].

(** The capability array of [AppSource::outCaps()]: one capability with
    every field unspecified (include/coro/core/AppSource.h). *)
Definition AppSource_outCaps : list t := [mk None None None].

End AudioCaps.

Module NodeExamples.

Import Node AudioCaps.

(** A stage class that produces what [AirPlay2Source] declares, and one
    that accepts anything. *)
Definition source_class : NodeClass AudioCaps.t :=
  {| outCaps := Some AirPlay2Source_outCaps; inCaps := None |}.
Definition sink_class : NodeClass AudioCaps.t :=
  {| outCaps := None; inCaps := Some [AudioCaps.mk None None None] |}.

Definition rate48000_sink_class : NodeClass AudioCaps.t :=
  {| outCaps := None;
     inCaps := Some [AudioCaps.mk (Some RawInt16) (Some Rate48000) None] |}.

(** Two unlinked stages at addresses 1 and 2. *)
Definition two_stages : gmap nat (Node.t AudioCaps.t) :=
  <[1%nat := Node.mk source_class None]>
    (<[2%nat := Node.mk sink_class None]> ∅).

End NodeExamples.

(** ** [coro::audio::AlsaSink::onStop] *)

Module AlsaSink.

(** What the sink does to the outside: calls into ALSA on a device handle,
    and log lines. *)
Inductive verbosity : Type := INFO | WARNING | ERROR.

Inductive event : Type :=
| snd_pcm_drain (pcm : nat)
| snd_pcm_close (pcm : nat)
| LOG_F (level : verbosity) (text : string).

Section Sink.
(** [AudioConf] is declared in audio/AudioConf.h, not among the
    sources. *)
Context {AudioConf : Type}.

Record t : Type := mk {
  m_pcm : option nat;            (* snd_pcm_t*, nullptr is None *)
  m_device : string;
  m_conf : AudioConf
}.

Definition set_pcm (p : option nat) (s : t) : t :=
  mk p (m_device s) (m_conf s).

(** [AlsaSink::onStop]: the sink afterwards and what it did. *)
Definition onStop (s : t) : t * list event :=
  let '(s, done) :=
    match m_pcm s with
    | Some pcm =>
        (set_pcm None s, [snd_pcm_drain pcm; snd_pcm_close pcm])
    | None => (s, [])
    end in
  (s, done ++ [LOG_F INFO "Device flushed"]).

End Sink.

Arguments t : clear implicits.

End AlsaSink.

(** ** [coro::audio::AudioConverter<T,U>::process] *)

Module AudioConverter.

Import Mem Buffer.

Section Process.
(** The template parameters: [sizeof(T)], [sizeof(U)] and the conversion
    [(U)x] of one sample, from the bytes of a [T] to the bytes of a [U].
    [AudioConf] is declared in audio/AudioConf.h, not among the sources. *)
Context {AudioConf : Type}.
Context (sizeof_T sizeof_U : Z) (cast : list byte -> list byte).

(** The loop of [process]: [count] times, the sample [from] points at is
    read, converted and assigned to what [to] points at, and both pointers
    step to the next sample; both point into the same storage.  [None] is
    an access outside the storage. *)
Fixpoint convert (count : nat) (to from : Z) (v : list byte)
  : option (list byte) :=
  match count with
  | O => Some v
  | S count =>
      x ← load v from sizeof_T;
      v ← store v to (cast x);
      convert count (to + sizeof_U) (from + sizeof_T) v
  end.

(** The generic [AudioConverter<T,U>::process(conf, buffer)]: the returned
    configuration and the buffer afterwards.  The loop counter runs from 0
    to [buffer.size()/sizeof(T)], which the loop does not change. *)
Definition process (conf : AudioConf) (buffer : Buffer.t)
  : option (AudioConf * Buffer.t) :=
  let '(to, buffer) :=
    acquire (SizeT.wrap (size buffer * sizeof_U) / sizeof_T) buffer in
  let from := data buffer in
  v ← convert (Z.to_nat (size buffer / sizeof_T)) to from (m_buffer buffer);
  let buffer := set_buffer v buffer in
  let buffer := commit (SizeT.wrap (size buffer * sizeof_U) / sizeof_T) buffer in
  Some (conf, buffer).

End Process.

(** The samples of a byte sequence: consecutive pieces of [n] bytes. *)
Definition samples (n : Z) (count : nat) (bs : list byte) : list (list byte) :=
  reshape (replicate count (Z.to_nat n)) bs.

(** Two 16-bit samples in a buffer of their own, and a conversion that
    doubles the width of a sample by repeating its bytes. *)
Definition two_samples : Buffer.t := Buffer.mk [x01; x02; x03; x04] 4 0 0.
Definition widen (x : list byte) : list byte := x ++ x.

End AudioConverter.

(** ** Whether two stages of a store can be linked *)

Module NodeLinks.

Import Node.

Section Negotiation.
Context {Cap R : Type} (intersect : Cap -> Cap -> R) (isValid : R -> bool).

(** The condition under which [link prev next] exists, read off the classes
    of the two stages. *)
Definition linkable (h : gmap nat (Node.t Cap)) (prev next : nat) : bool :=
  match class_of <$> h !! prev, class_of <$> h !! next with
  | Some c1, Some c2 =>
      match outCaps c1, inCaps c2 with
      | Some out, Some inc =>
          bool_decide (length out = length inc)
          && canIntersect intersect isValid out inc
      | _, _ => false
      end
  | _, _ => false
  end.

End Negotiation.

(** Three unlinked stages: a source at 1, a sink at 2, another source
    at 3. *)
Definition three_stages : gmap nat (Node.t AudioCaps.t) :=
  <[3%nat := Node.mk NodeExamples.source_class None]> NodeExamples.two_stages.

End NodeLinks.

(** ** [AlsaPassthroughSink]: channel positions, device names, shutdown *)

Module AlsaPassthroughSink.

(** The channels of [enum AudioChannel] that AlsaPassthroughSink.cpp names;
    the declaration of the enumeration is not among the sources. *)
Inductive AudioChannel : Type :=
| AE_CH_NULL | AE_CH_RAW
| AE_CH_FL | AE_CH_FR | AE_CH_FC | AE_CH_LFE | AE_CH_BL | AE_CH_BR
| AE_CH_FLOC | AE_CH_FROC | AE_CH_BC | AE_CH_SL | AE_CH_SR
| AE_CH_TFL | AE_CH_TFR | AE_CH_TFC | AE_CH_TC
| AE_CH_TBL | AE_CH_TBR | AE_CH_TBC | AE_CH_BLOC | AE_CH_BROC
| AE_CH_UNKNOWN1 | AE_CH_UNKNOWN2 | AE_CH_UNKNOWN3 | AE_CH_UNKNOWN4
| AE_CH_UNKNOWN5 | AE_CH_UNKNOWN6 | AE_CH_UNKNOWN7 | AE_CH_UNKNOWN8.

(** The positions of [enum snd_pcm_chmap_position] of ALSA's pcm.h that the
    source names, as the [unsigned int] values they have there. *)
Definition SND_CHMAP_UNKNOWN : Z := 0.
Definition SND_CHMAP_FL : Z := 3.
Definition SND_CHMAP_FR : Z := 4.
Definition SND_CHMAP_RL : Z := 5.
Definition SND_CHMAP_RR : Z := 6.
Definition SND_CHMAP_FC : Z := 7.
Definition SND_CHMAP_LFE : Z := 8.
Definition SND_CHMAP_SL : Z := 9.
Definition SND_CHMAP_SR : Z := 10.
Definition SND_CHMAP_RC : Z := 11.
Definition SND_CHMAP_FLC : Z := 12.
Definition SND_CHMAP_FRC : Z := 13.
Definition SND_CHMAP_RLC : Z := 14.
Definition SND_CHMAP_RRC : Z := 15.
Definition SND_CHMAP_TC : Z := 21.
Definition SND_CHMAP_TFL : Z := 22.
Definition SND_CHMAP_TFR : Z := 23.
Definition SND_CHMAP_TFC : Z := 24.
Definition SND_CHMAP_TRL : Z := 25.
Definition SND_CHMAP_TRR : Z := 26.
Definition SND_CHMAP_TRC : Z := 27.

(** [AlsaPassthroughSink::ALSAChannelToAEChannel] *)
Definition ALSAChannelToAEChannel (alsaChannel : Z) : AudioChannel :=
  if alsaChannel =? SND_CHMAP_FL then AE_CH_FL
  else if alsaChannel =? SND_CHMAP_FR then AE_CH_FR
  else if alsaChannel =? SND_CHMAP_FC then AE_CH_FC
  else if alsaChannel =? SND_CHMAP_LFE then AE_CH_LFE
  else if alsaChannel =? SND_CHMAP_RL then AE_CH_BL
  else if alsaChannel =? SND_CHMAP_RR then AE_CH_BR
  else if alsaChannel =? SND_CHMAP_FLC then AE_CH_FLOC
  else if alsaChannel =? SND_CHMAP_FRC then AE_CH_FROC
  else if alsaChannel =? SND_CHMAP_RC then AE_CH_BC
  else if alsaChannel =? SND_CHMAP_SL then AE_CH_SL
  else if alsaChannel =? SND_CHMAP_SR then AE_CH_SR
  else if alsaChannel =? SND_CHMAP_TFL then AE_CH_TFL
  else if alsaChannel =? SND_CHMAP_TFR then AE_CH_TFR
  else if alsaChannel =? SND_CHMAP_TFC then AE_CH_TFC
  else if alsaChannel =? SND_CHMAP_TC then AE_CH_TC
  else if alsaChannel =? SND_CHMAP_TRL then AE_CH_TBL
  else if alsaChannel =? SND_CHMAP_TRR then AE_CH_TBR
  else if alsaChannel =? SND_CHMAP_TRC then AE_CH_TBC
  else if alsaChannel =? SND_CHMAP_RLC then AE_CH_BLOC
  else if alsaChannel =? SND_CHMAP_RRC then AE_CH_BROC
  else AE_CH_UNKNOWN1.

(** [AlsaPassthroughSink::AEChannelToALSAChannel] *)
Definition AEChannelToALSAChannel (aeChannel : AudioChannel) : Z :=
  match aeChannel with
  | AE_CH_FL => SND_CHMAP_FL
  | AE_CH_FR => SND_CHMAP_FR
  | AE_CH_FC => SND_CHMAP_FC
  | AE_CH_LFE => SND_CHMAP_LFE
  | AE_CH_BL => SND_CHMAP_RL
  | AE_CH_BR => SND_CHMAP_RR
  | AE_CH_FLOC => SND_CHMAP_FLC
  | AE_CH_FROC => SND_CHMAP_FRC
  | AE_CH_BC => SND_CHMAP_RC
  | AE_CH_SL => SND_CHMAP_SL
  | AE_CH_SR => SND_CHMAP_SR
  | AE_CH_TFL => SND_CHMAP_TFL
  | AE_CH_TFR => SND_CHMAP_TFR
  | AE_CH_TFC => SND_CHMAP_TFC
  | AE_CH_TC => SND_CHMAP_TC
  | AE_CH_TBL => SND_CHMAP_TRL
  | AE_CH_TBR => SND_CHMAP_TRR
  | AE_CH_TBC => SND_CHMAP_TRC
  | AE_CH_BLOC => SND_CHMAP_RLC
  | AE_CH_BROC => SND_CHMAP_RRC
  | _ => SND_CHMAP_UNKNOWN
  end.

(** [device.find(c) != std::string::npos] *)
Fixpoint has_char (c : Ascii.ascii) (s : string) : bool :=
  match s with
  | EmptyString => false
  | String d s => if Ascii.eqb d c then true else has_char c s
  end.

(** [AlsaPassthroughSink::AppendParams]: the value of [device] afterwards. *)
Definition AppendParams (device params : string) : string :=
  let device :=
    (device ++ String (if negb (has_char ":"%char device)
                       then ":"%char else ","%char)
                      EmptyString)%string in
  (device ++ params)%string.

Inductive AudioDeviceType : Type := Hdmi | Spdif | Pcm.

(** [AlsaPassthroughSink::AEDeviceTypeFromName] *)
Definition AEDeviceTypeFromName (name : string) : AudioDeviceType :=
  if String.eqb (substring 0 4 name) "hdmi"%string then Hdmi
  else if String.eqb (substring 0 6 name) "iec958"%string
          || String.eqb (substring 0 5 name) "spdif"%string then Spdif
  else Pcm.

(** Calls into ALSA on a device handle. *)
Inductive event : Type :=
| snd_pcm_drop (pcm : nat)
| snd_pcm_drain (pcm : nat)
| snd_pcm_prepare (pcm : nat)
| snd_pcm_close (pcm : nat).

Section Sink.
(** The members other than the device handle, which the functions below do
    not touch. *)
Context {Members : Type}.

Record t : Type := mk {
  m_pcm : option nat;            (* snd_pcm_t*, NULL is None *)
  members : Members
}.

(** [AlsaPassthroughSink::Stop]: the calls it makes. *)
Definition Stop (s : t) : list event :=
  match m_pcm s with
  | None => []
  | Some pcm => [snd_pcm_drop pcm]
  end.

(** [AlsaPassthroughSink::Drain] *)
Definition Drain (s : t) : list event :=
  match m_pcm s with
  | None => []
  | Some pcm => [snd_pcm_drain pcm; snd_pcm_prepare pcm]
  end.

(** [AlsaPassthroughSink::deinit]: the sink afterwards and the calls made. *)
Definition deinit (s : t) : t * list event :=
  match m_pcm s with
  | Some pcm => (mk None (members s), Stop s ++ [snd_pcm_close pcm])
  | None => (s, [])
  end.

End Sink.

Arguments t : clear implicits.

End AlsaPassthroughSink.

(** ** [coro::audio::AlsaSink::writeSimple] *)

Module AlsaSinkWrite.

(** What [writeSimple] does to the outside.  Pointers into the caller's
    sample buffer are addresses in [Z]; a warning is logged with the value
    it reports. *)
Inductive event : Type :=
| snd_pcm_writei (ptr frames : Z)
| snd_pcm_recover (err : Z)
| LOG_write_failed (err : Z)
| LOG_recovery_failed (err : Z)
| LOG_frames_written (ret expected : Z).

(** Passing a [snd_pcm_sframes_t] (a 64-bit [long]) where an [int] is
    expected, as [snd_strerror] and [snd_pcm_recover] do: the value is
    narrowed to 32 bits, two's complement. *)
Definition to_int (z : Z) : Z := (z + 2 ^ 31) mod 2 ^ 32 - 2 ^ 31.

(** The loop of [writeSimple].  What ALSA returns is not in the program's
    hands: [answers] holds the return values of the successive calls to
    [snd_pcm_writei] and [snd_pcm_recover], in the order they are made;
    [None] means the loop is still waiting for an answer. *)
Fixpoint writeSimple_loop (answers : list Z) (ptr frameCount : Z)
  : option (list event) :=
  if frameCount >? 0 then
    match answers with
    | [] => None
    | ret :: answers =>
        let call := snd_pcm_writei ptr frameCount in
        (* If all ok *)
        if ret =? 0 then Some [call]
        else if ret <? 0 then
          (* If failed, try to recover *)
          match answers with
          | [] => None
          | ret' :: answers =>
              let tried := [call; LOG_write_failed (to_int ret);
                            snd_pcm_recover (to_int ret)] in
              (* If recover failed *)
              if ret' <? 0
              then Some (tried ++ [LOG_recovery_failed (to_int ret')])
              else
                let short :=
                  if (ret' >? 0) && (ret' <? frameCount)
                  then [LOG_frames_written ret' frameCount] else [] in
                rest ← writeSimple_loop answers (ptr + ret' * 4)
                                        (frameCount - ret');
                Some (tried ++ short ++ rest)
          end
        else
          let short :=
            if (ret >? 0) && (ret <? frameCount)
            then [LOG_frames_written ret frameCount] else [] in
          rest ← writeSimple_loop answers (ptr + ret * 4) (frameCount - ret);
          Some (call :: short ++ rest)
    end
  else Some [].

(** [AlsaSink::writeSimple(samples, bytesCount)] *)
Definition writeSimple (answers : list Z) (samples bytesCount : Z)
  : option (list event) :=
  let frameCount := bytesCount / 4 in
  let ptr := samples in
  writeSimple_loop answers ptr frameCount.

(** A block offered to ALSA lies within the [bytesCount] bytes at
    [samples], is not empty, and ends with the last whole frame. *)
Definition offered_within (samples bytesCount : Z) (e : event) : Prop :=
  match e with
  | snd_pcm_writei ptr frames =>
      0 < frames /\ samples <= ptr /\
      ptr + 4 * frames = samples + 4 * (bytesCount / 4) /\
      ptr + 4 * frames <= samples + bytesCount
  | _ => True
  end.

End AlsaSinkWrite.

(** ** [AlsaPassthroughSink::GetParamFromName] *)

Module AlsaDeviceNames.

Import AlsaPassthroughSink.

(** [s.find_first_of(chars, pos)]: the index of the first character at or
    after [pos] that occurs in [chars]; [None] is [npos]. *)
Fixpoint find_first_of (chars s : string) (pos : nat) : option nat :=
  match s with
  | EmptyString => None
  | String c s =>
      match pos with
      | S pos => S <$> find_first_of chars s pos
      | O =>
          if has_char c chars then Some 0%nat
          else S <$> find_first_of chars s 0
      end
  end.

(** The characters that end a value: comma, single quote, double quote. *)
Definition delimiters : string :=
  String ","%char (String "'"%char (String (ascii_of_nat 34) EmptyString)).

(** [AlsaPassthroughSink::GetParamFromName(name, param)].  [name.find] is
    [String.index 0]; when [find_first_of] returns [npos], the count
    [npos - parPos] exceeds what is left of [name] and [substr] returns the
    rest. *)
Definition GetParamFromName (name param : string) : string :=
  match index 0 (param ++ "=")%string name with
  | Some parPos =>
      let parPos := (parPos + String.length param + 1)%nat in
      match find_first_of delimiters name parPos with
      | Some e => substring parPos (e - parPos) name
      | None => substring parPos (String.length name - parPos) name
      end
  | None => EmptyString
  end.

(** The rest of a name after a value: nothing, or something that starts
    with a delimiter. *)
Definition ends_value (rest : string) : Prop :=
  match rest with
  | EmptyString => True
  | String d _ => has_char d delimiters = true
  end.

End AlsaDeviceNames.

(** * Properties *)

(** ** Facts about [size_t] arithmetic *)

Module SizeTFacts.

Import SizeT.

Lemma modulus_eq : modulus = 18446744073709551616.
Proof. reflexivity. Qed.

Lemma max_size_eq : max_size = 9223372036854775807.
Proof. reflexivity. Qed.

Lemma wrap_small z : 0 <= z < modulus -> wrap z = z.
Proof. intros H. unfold wrap. now apply Z.mod_small. Qed.

Lemma wrap_range z : in_range (wrap z).
Proof. unfold in_range, wrap. apply Z.mod_pos_bound. reflexivity. Qed.

Lemma add_small a b : 0 <= a + b < modulus -> add a b = a + b.
Proof. apply wrap_small. Qed.

Lemma sub_small a b : 0 <= a - b < modulus -> sub a b = a - b.
Proof. apply wrap_small. Qed.

(** A difference that would be negative wraps to the top of the range. *)
Lemma sub_underflow a b :
  - modulus <= a - b < 0 -> sub a b = a - b + modulus.
Proof.
  intros H. unfold sub, wrap.
  symmetry. apply (Z.mod_unique_pos _ _ (-1)); lia.
Qed.

Lemma add_overflow a b :
  modulus <= a + b < 2 * modulus -> add a b = a + b - modulus.
Proof.
  intros H. unfold add, wrap.
  symmetry. apply (Z.mod_unique_pos _ _ 1); lia.
Qed.

End SizeTFacts.

(** ** Facts about raw memory *)

Module MemFacts.

Import Mem.

Lemma vsize_nonneg v : 0 <= vsize v.
Proof. unfold vsize. lia. Qed.

Lemma vsize_app v w : vsize (v ++ w) = vsize v + vsize w.
Proof. unfold vsize. rewrite length_app. lia. Qed.

Lemma vsize_resize v n : 0 <= n -> vsize (resize v n) = n.
Proof.
  intros Hn. unfold vsize, resize.
  rewrite length_app, length_take, length_replicate. lia.
Qed.

Lemma resize_grow v n :
  vsize v <= n -> resize v n = v ++ replicate (Z.to_nat n - length v)%nat x00.
Proof.
  intros H. unfold resize, vsize in *.
  rewrite take_ge by lia. reflexivity.
Qed.

Lemma load_Some v p n bs :
  load v p n = Some bs ->
  0 <= p /\ 0 <= n /\ p + n <= vsize v /\
  bs = take (Z.to_nat n) (drop (Z.to_nat p) v).
Proof.
  unfold load. intros H.
  destruct (0 <=? p) eqn:Hp; [|discriminate].
  destruct (0 <=? n) eqn:Hn; [|discriminate].
  destruct (p + n <=? vsize v) eqn:Hb; [|discriminate].
  simpl in H. inversion H. repeat split; try lia.
Qed.

Lemma load_in_bounds v p n :
  0 <= p -> 0 <= n -> p + n <= vsize v ->
  load v p n = Some (take (Z.to_nat n) (drop (Z.to_nat p) v)).
Proof.
  intros Hp Hn Hb. unfold load.
  destruct (0 <=? p) eqn:E1; [|lia].
  destruct (0 <=? n) eqn:E2; [|lia].
  destruct (p + n <=? vsize v) eqn:E3; [|lia].
  reflexivity.
Qed.

Lemma load_length v p n bs : load v p n = Some bs -> vsize bs = n.
Proof.
  intros H. apply load_Some in H as (Hp & Hn & Hb & ->).
  unfold vsize in *. rewrite length_take, length_drop. lia.
Qed.

(** Bytes appended after the range do not change what is read. *)
Lemma load_app_l v w p n :
  0 <= p -> 0 <= n -> p + n <= vsize v ->
  load (v ++ w) p n = load v p n.
Proof.
  intros Hp Hn Hb.
  rewrite !load_in_bounds; try lia.
  - f_equal. unfold vsize in *.
    rewrite drop_app_le by lia.
    rewrite take_app_le; [reflexivity|].
    rewrite length_drop. lia.
  - rewrite vsize_app. pose proof (vsize_nonneg w). lia.
Qed.

Lemma store_in_bounds v p bs :
  0 <= p -> p + vsize bs <= vsize v ->
  store v p bs =
    Some (take (Z.to_nat p) v ++ bs ++ drop (Z.to_nat p + length bs)%nat v).
Proof.
  intros Hp Hb. unfold store.
  destruct (0 <=? p) eqn:E1; [|lia].
  destruct (p + vsize bs <=? vsize v) eqn:E2; [|lia].
  reflexivity.
Qed.

Lemma store_Some v p bs v' :
  store v p bs = Some v' ->
  0 <= p /\ p + vsize bs <= vsize v /\
  v' = take (Z.to_nat p) v ++ bs ++ drop (Z.to_nat p + length bs)%nat v.
Proof.
  unfold store. intros H.
  destruct (0 <=? p) eqn:Hp; [|discriminate].
  destruct (p + vsize bs <=? vsize v) eqn:Hb; [|discriminate].
  simpl in H. inversion H. repeat split; try lia.
Qed.

Lemma store_vsize v p bs v' : store v p bs = Some v' -> vsize v' = vsize v.
Proof.
  intros H. apply store_Some in H as (Hp & Hb & ->).
  unfold vsize in *.
  rewrite !length_app, length_take, length_drop. lia.
Qed.

(** Reading back exactly the window that was written. *)
Lemma load_store_same v p bs v' :
  store v p bs = Some v' -> load v' p (vsize bs) = Some bs.
Proof.
  intros H. pose proof (store_vsize _ _ _ _ H) as Hsz.
  apply store_Some in H as (Hp & Hb & ->).
  rewrite load_in_bounds; try lia; [|apply vsize_nonneg].
  f_equal. unfold vsize in *.
  rewrite drop_app_length'; [|rewrite length_take; lia].
  rewrite Nat2Z.id. apply take_app_length.
Qed.

(** A single byte outside the written window keeps its value. *)
Lemma store_lookup_outside v p bs v' (i : nat) :
  store v p bs = Some v' ->
  (Z.of_nat i < p \/ p + vsize bs <= Z.of_nat i) ->
  v' !! i = v !! i.
Proof.
  intros H Hi. apply store_Some in H as (Hp & Hb & ->).
  unfold vsize in *.
  destruct Hi as [Hi|Hi].
  - rewrite lookup_app_l by (rewrite length_take; lia).
    apply lookup_take_lt. lia.
  - rewrite lookup_app_r by (rewrite length_take; lia).
    rewrite length_take.
    rewrite lookup_app_r by lia.
    rewrite lookup_drop. f_equal. lia.
Qed.

End MemFacts.

(** ** Properties of [Buffer] *)

Module BufferFacts.

Import Mem Buffer MemFacts.

Ltac range_facts :=
  pose proof SizeTFacts.modulus_eq; pose proof SizeTFacts.max_size_eq.

(** *** The three paths of [acquire] *)

Lemma sizeAtBack_contained b :
  in_range b -> contained b ->
  SizeT.sub (SizeT.sub (vsize (m_buffer b)) (m_offset b)) (m_size b)
  = vsize (m_buffer b) - m_offset b - m_size b.
Proof.
  intros (Hs & Ho & Ha & Hc) Hin. range_facts.
  unfold contained, capacity, size, SizeT.in_range in *.
  rewrite (SizeTFacts.sub_small (vsize _) (m_offset b)) by lia.
  apply SizeTFacts.sub_small. lia.
Qed.

Lemma sizeAtBack_overrun b :
  in_range b -> ~ contained b -> m_offset b + m_size b < SizeT.modulus ->
  SizeT.sub (SizeT.sub (vsize (m_buffer b)) (m_offset b)) (m_size b)
  = vsize (m_buffer b) - m_offset b - m_size b + SizeT.modulus.
Proof.
  intros (Hs & Ho & Ha & Hc) Hin Hsum. range_facts.
  pose proof (vsize_nonneg (m_buffer b)).
  unfold contained, capacity, size, SizeT.in_range in *.
  destruct (Z_lt_le_dec (vsize (m_buffer b)) (m_offset b)) as [Hlt|Hge].
  - rewrite (SizeTFacts.sub_underflow (vsize _) (m_offset b)) by lia.
    rewrite SizeTFacts.sub_small by lia. lia.
  - rewrite (SizeTFacts.sub_small (vsize _) (m_offset b)) by lia.
    apply SizeTFacts.sub_underflow. lia.
Qed.

Lemma acquire_front b n : n <= m_offset b -> acquire n b = (0, b).
Proof.
  intros H. unfold acquire.
  destruct (m_offset b >=? n) eqn:E; [reflexivity|lia].
Qed.

Lemma acquire_back b n :
  in_range b -> contained b ->
  m_offset b < n -> n <= vsize (m_buffer b) - m_offset b - m_size b ->
  acquire n b
  = (m_offset b + m_size b, set_acquiredOffset (m_offset b + m_size b) b).
Proof.
  intros Hr Hin Hlt Hfit. unfold acquire.
  destruct (m_offset b >=? n) eqn:E; [lia|].
  rewrite sizeAtBack_contained by assumption.
  destruct (vsize (m_buffer b) - m_offset b - m_size b >=? n) eqn:E2; [|lia].
  destruct Hr as (Hs & Ho & Ha & Hc). range_facts.
  unfold contained, capacity, size, SizeT.in_range in *.
  rewrite SizeTFacts.add_small by lia. reflexivity.
Qed.

Lemma acquire_grow b n :
  in_range b -> contained b ->
  m_offset b < n -> vsize (m_buffer b) - m_offset b - m_size b < n ->
  m_offset b + m_size b + n < SizeT.modulus ->
  acquire n b
  = (m_offset b + m_size b,
     set_acquiredOffset (m_offset b + m_size b)
       (set_buffer
          (m_buffer b ++
           replicate (Z.to_nat (m_offset b + m_size b + n)
                      - length (m_buffer b))%nat x00) b)).
Proof.
  intros Hr Hin Hlt Hfit Hsum. unfold acquire.
  destruct (m_offset b >=? n) eqn:E; [lia|].
  rewrite sizeAtBack_contained by assumption.
  destruct (vsize (m_buffer b) - m_offset b - m_size b >=? n) eqn:E2; [lia|].
  destruct Hr as (Hs & Ho & Ha & Hc). range_facts.
  unfold contained, capacity, size, SizeT.in_range in *.
  cbn [m_offset m_size m_buffer m_acquiredOffset set_buffer set_acquiredOffset].
  rewrite (SizeTFacts.sub_small (vsize (m_buffer b))) by lia.
  rewrite !SizeTFacts.add_small by lia.
  replace (vsize (m_buffer b) - (vsize (m_buffer b) - m_offset b - m_size b) + n)
    with (m_offset b + m_size b + n) by lia.
  rewrite resize_grow by lia. reflexivity.
Qed.

(** When the committed region already overruns the storage, the unsigned
    subtraction wraps and the request is served "at the back" unchanged. *)
Lemma acquire_overrun b n :
  in_range b -> ~ contained b ->
  m_offset b < n -> m_offset b + m_size b + n < SizeT.modulus -> 0 <= n ->
  acquire n b
  = (m_offset b + m_size b, set_acquiredOffset (m_offset b + m_size b) b).
Proof.
  intros Hr Hin Hlt Hsum Hn. unfold acquire.
  destruct (m_offset b >=? n) eqn:E; [lia|].
  rewrite sizeAtBack_overrun by (assumption || lia).
  pose proof (vsize_nonneg (m_buffer b)).
  destruct Hr as (Hs & Ho & Ha & Hc). range_facts.
  unfold contained, capacity, size, SizeT.in_range in *.
  destruct (vsize (m_buffer b) - m_offset b - m_size b + SizeT.modulus >=? n)
    eqn:E2; [|lia].
  rewrite SizeTFacts.add_small by lia. reflexivity.
Qed.

Lemma contained_dec b : {contained b} + {~ contained b}.
Proof. unfold contained. apply Z_le_dec. Qed.

(** *** Preference order of [acquire] *)


(** *** Frame property of [acquire] *)

(** C3, amended.  For every state with [size_t]-valued members and every
    request [n] for which [offset + size() + n] is representable in
    [size_t], [acquire n] leaves the committed view alone: [size()] and the
    offset behind [data()] are the same after the call, and reading
    [size()] bytes at [data()] gives the same bytes. *)
Theorem acquire_frame b n :
  in_range b -> 0 <= n ->
  m_offset b + size b + n < SizeT.modulus ->
  size (snd (acquire n b)) = size b /\
  data (snd (acquire n b)) = data b /\
  committed (snd (acquire n b)) = committed b.
Proof.
  intros Hr Hn Hsum. unfold size in Hsum.
  destruct (Z_le_gt_dec n (m_offset b)) as [Hfront|Hbehind].
  { rewrite acquire_front by lia. auto. }
  destruct (contained_dec b) as [Hin|Hout].
  - destruct (Z_le_gt_dec n (vsize (m_buffer b) - m_offset b - m_size b)).
    + rewrite acquire_back by (assumption || lia). auto.
    + rewrite acquire_grow by (assumption || lia).
      repeat split. unfold committed, data, size. simpl.
      destruct Hr as (Hs & Ho & Ha & Hc).
      unfold contained, capacity, size, SizeT.in_range in *.
      apply load_app_l; lia.
  - rewrite acquire_overrun by (assumption || lia). auto.
Qed.

(** *** Round trip of [acquire], write, [commit] *)

(** X7.  On a buffer with [size_t]-valued members whose committed region
    lies in its storage, for [n] bytes the vector can allocate on top of
    it: when the request is served behind the committed region (at the
    back, or by growing), the round trip of [acquire n], writing the [n]
    bytes and [commit n] holds, and every byte of the old storage outside
    the window is unchanged. *)
Lemma round_trip_behind b bs :
  in_range b -> contained b ->
  m_offset b < vsize bs ->
  m_offset b + m_size b + vsize bs <= SizeT.max_size ->
  exists b',
    acquire_write_commit bs b = Some b' /\
    size b' = vsize bs /\
    committed b' = Some bs /\
    forall i : nat,
      (Z.of_nat i < fst (acquire (vsize bs) b) \/
       fst (acquire (vsize bs) b) + vsize bs <= Z.of_nat i) ->
      Z.of_nat i < capacity b ->
      m_buffer b' !! i = m_buffer b !! i.
Proof.
  intros Hr Hin Hlt Hsum. range_facts.
  pose proof Hr as (Hs & Ho & Ha & Hc).
  unfold acquire_write_commit.
  unfold contained, capacity, size, SizeT.in_range in *.
  destruct (Z_le_gt_dec (vsize bs)
              (vsize (m_buffer b) - m_offset b - m_size b)) as [Hfit|Hno].
  - rewrite acquire_back by (assumption || lia).
    unfold write. cbn [m_buffer set_acquiredOffset].
    rewrite store_in_bounds by lia. cbn [mbind option_bind].
    eexists. split; [reflexivity|].
    repeat split.
    + unfold committed, commit, data, size. cbn.
      erewrite load_store_same; [reflexivity|].
      apply store_in_bounds; lia.
    + intros i Hi Hcap. cbn in *.
      eapply store_lookup_outside; [apply store_in_bounds; lia|].
      exact Hi.
  - rewrite acquire_grow by (assumption || lia).
    unfold write. cbn [m_buffer set_acquiredOffset set_buffer].
    set (v := m_buffer b ++ _).
    assert (Hv : vsize v = m_offset b + m_size b + vsize bs).
    { subst v. rewrite vsize_app. unfold vsize. rewrite length_replicate.
      unfold vsize in *. lia. }
    rewrite store_in_bounds by lia. cbn [mbind option_bind].
    eexists. split; [reflexivity|].
    repeat split.
    + unfold committed, commit, data, size. cbn.
      erewrite load_store_same; [reflexivity|].
      apply store_in_bounds; lia.
    + intros i Hi Hcap. cbn in *.
      erewrite store_lookup_outside;
        [|apply store_in_bounds; lia|exact Hi].
      subst v. apply lookup_app_l. unfold vsize in *. lia.
Qed.

(** C1, at a buffer whose next request is served from the space in front.
    After producing 4 and then 8 bytes the committed region starts at
    offset 4, so [acquire 4] returns the start of the storage; the four
    bytes are written there, but [commit 4] publishes offset 4: [data()]
    shows the old bytes 05..08 instead of the bytes written. *)
Theorem round_trip_front_loses_write :
  exists b b',
    after_two_steps = Some b /\
    fst (acquire 4 b) = 0 /\
    acquire_write_commit [x15; x16; x17; x18] b = Some b' /\
    size b' = 4 /\
    data b' = 4 /\
    committed b' = Some [x05; x06; x07; x08] /\
    committed b' <> Some [x15; x16; x17; x18].
Proof.
  eexists. eexists.
  split; [vm_compute; reflexivity|].
  repeat split; try (vm_compute; reflexivity).
  vm_compute. discriminate.
Qed.

(** Closes a numeric side condition on a concrete buffer. *)
Ltac concrete :=
  unfold in_range, contained, capacity, size, vsize, SizeT.in_range;
  rewrite ?SizeTFacts.modulus_eq, ?SizeTFacts.max_size_eq; simpl; lia.

Lemma sample_in_range : in_range sample.
Proof. concrete. Qed.


Lemma acquire_frame_witness :
  committed (snd (acquire 6 sample)) = committed sample.
Proof.
  apply (acquire_frame sample 6).
  - exact sample_in_range.
  - lia.
  - concrete.
Defined.

(** The largest [size_t] value as a request. *)
Lemma huge_request_in_range : SizeT.in_range (2 ^ 64 - 1).
Proof. unfold SizeT.in_range. rewrite SizeTFacts.modulus_eq. lia. Qed.


(** C3 as stated fails for the same request: [acquire (2^64 - 1)] on
    [sample] cuts the storage down to 7 bytes, so the four committed bytes
    at offset 4 can no longer be read through [data()]. *)
Lemma acquire_huge_request_loses_committed :
  committed sample = Some [x05; x06; x07; x08] /\
  committed (snd (acquire (2 ^ 64 - 1) sample)) = None /\
  committed (snd (acquire (2 ^ 64 - 1) sample)) <> committed sample.
Proof.
  repeat split; try (vm_compute; reflexivity).
  vm_compute. discriminate.
Qed.

(** *** Containment *)

(** C4 as stated fails: [commit] is not checked against anything, so a
    [commit 1] on a fresh empty buffer publishes one byte of a storage
    that holds none. *)
Lemma unchecked_commit_escapes :
  reachable (commit 1 (Buffer 0)) /\ ~ contained (commit 1 (Buffer 0)).
Proof.
  split.
  - apply (reach_Buffer 0 [Commit 1]); [concrete|].
    repeat constructor; simpl; concrete.
  - concrete.
Qed.

Lemma protocol_inv_Buffer n :
  0 <= n <= SizeT.max_size -> protocol_inv None (Buffer n).
Proof.
  intros Hn. range_facts.
  unfold protocol_inv, in_range, contained, capacity, size, SizeT.in_range.
  cbn. rewrite vsize_resize by lia. lia.
Qed.

Lemma protocol_inv_Buffer_copy src p n r b :
  0 <= n <= SizeT.max_size -> 0 <= r <= SizeT.max_size ->
  Buffer_copy src p n r = Some b -> protocol_inv None b.
Proof.
  intros Hn Hr H. range_facts. unfold Buffer_copy in H.
  destruct (load src p n) as [bytes|] eqn:Hl; [|discriminate].
  cbn [mbind option_bind] in H.
  destruct (store _ 0 bytes) as [v|] eqn:Hst; [|discriminate].
  cbn in H. inversion H; subst b; clear H.
  apply store_vsize in Hst. cbn in Hst.
  rewrite vsize_resize in Hst by lia.
  unfold protocol_inv, in_range, contained, capacity, size, SizeT.in_range.
  cbn. lia.
Qed.

Lemma protocol_inv_acquire g b m :
  protocol_inv g b -> 0 <= m ->
  m_offset b + m_size b + m <= SizeT.max_size ->
  protocol_inv (if m_offset b >=? m then None else Some m)
               (snd (acquire m b)).
Proof.
  intros (Hr & Hin & Hg) Hm Hsum. range_facts.
  pose proof Hr as (Hs & Ho & Ha & Hc).
  destruct (m_offset b >=? m) eqn:E.
  - rewrite acquire_front by lia. repeat split; auto; apply Hr.
  - unfold contained, capacity, size, SizeT.in_range in *.
    destruct (Z_le_gt_dec m (vsize (m_buffer b) - m_offset b - m_size b)).
    + rewrite acquire_back by (assumption || lia).
      unfold protocol_inv, in_range, contained, capacity, size,
        SizeT.in_range. cbn. lia.
    + rewrite acquire_grow by (assumption || lia).
      unfold protocol_inv, in_range, contained, capacity, size,
        SizeT.in_range. cbn.
      rewrite vsize_app. unfold vsize in *. rewrite length_replicate. lia.
Qed.

Lemma protocol_inv_write g b p bs b' :
  protocol_inv g b -> write p bs b = Some b' -> protocol_inv g b'.
Proof.
  intros (Hr & Hin & Hg) H. unfold write in H.
  destruct (store (m_buffer b) p bs) as [v|] eqn:Hst; [|discriminate].
  cbn in H. inversion H; subst b'; clear H.
  apply store_vsize in Hst.
  unfold protocol_inv, in_range, contained, capacity, size in *.
  cbn. rewrite Hst. auto.
Qed.

Lemma protocol_inv_commit m b n :
  protocol_inv (Some m) b -> 0 <= n <= m -> protocol_inv None (commit n b).
Proof.
  intros (Hr & Hin & Hm & Hg) Hn. range_facts.
  destruct Hr as (Hs & Ho & Ha & Hc).
  unfold protocol_inv, in_range, contained, capacity, size,
    SizeT.in_range in *.
  cbn. lia.
Qed.

Lemma protocol_invariant g b : protocol g b -> protocol_inv g b.
Proof.
  induction 1;
    eauto using protocol_inv_Buffer, protocol_inv_Buffer_copy,
      protocol_inv_acquire, protocol_inv_write, protocol_inv_commit.
Qed.

(** C4, amended.  For every buffer reached from a constructor by
    [acquire] calls, writes into the storage, and [commit n] calls that
    finalise the directly preceding [acquire m] with [n <= m], that
    [acquire] having been served behind the committed region, the
    committed region is contained in the allocated storage:
    [offset + size() <= capacity]. *)
Theorem protocol_contained g b : protocol g b -> contained b.
Proof.
  intros H. apply protocol_invariant in H. apply H.
Qed.

Lemma protocol_contained_witness :
  contained (commit 2 (snd (acquire 4 (Buffer 0)))).
Proof.
  apply (protocol_contained None).
  apply (proto_commit 4); [|lia].
  apply (proto_acquire None (Buffer 0) 4).
  - apply proto_Buffer. concrete.
  - lia.
  - concrete.
Defined.

End BufferFacts.

(** ** Properties of [Buffer::split] *)

Module SplitFacts.

Import Mem Buffer MemFacts.

Lemma chunk_count_above S c k : 0 < c -> k * c < S -> k < chunk_count S c.
Proof.
  intros Hc Hk. unfold chunk_count.
  enough (k + 1 <= (S + c - 1) / c) by lia.
  apply Z.div_le_lower_bound; lia.
Qed.

Lemma chunk_count_below S c k : 0 < c -> S <= k * c -> chunk_count S c <= k.
Proof.
  intros Hc Hk. unfold chunk_count.
  enough ((S + c - 1) / c < k + 1) by lia.
  apply Z.div_lt_upper_bound; lia.
Qed.

Lemma chunk_count_nonneg S c : 0 < c -> 0 <= S -> 0 <= chunk_count S c.
Proof. intros Hc HS. unfold chunk_count. apply Z.div_pos; lia. Qed.

(** The chunks cover the committed size... *)
Lemma chunk_count_covers S c : 0 < c -> S <= chunk_count S c * c.
Proof.
  intros Hc.
  destruct (Z_le_gt_dec S (chunk_count S c * c)) as [H|H]; [exact H|].
  apply Z.gt_lt, chunk_count_above in H; lia.
Qed.

(** ... and the last one starts inside it. *)
Lemma chunk_count_tight S c : 0 < c -> 0 < S -> (chunk_count S c - 1) * c < S.
Proof.
  intros Hc HS.
  destruct (Z_lt_le_dec ((chunk_count S c - 1) * c) S) as [H|H]; [exact H|].
  apply chunk_count_below in H; lia.
Qed.

(** The cover is exact precisely when the chunk size divides the size. *)
Lemma chunk_count_exact S c :
  0 < c -> 0 <= S -> (chunk_count S c * c = S <-> S mod c = 0).
Proof.
  intros Hc HS. split; intros H.
  - rewrite <- H. apply Z_mod_mult.
  - apply Z.mod_divide in H; [|lia]. destruct H as [q Hq]. subst S.
    assert (chunk_count (q * c) c <= q) by (apply chunk_count_below; lia).
    pose proof (chunk_count_covers (q * c) c Hc). nia.
Qed.

Section Generic.
Context {T : Type} (make : Z -> Z -> T).

(** More fuel does not change a result. *)
Lemma split_loop_mono fuel fuel' b c i l :
  (fuel <= fuel')%nat ->
  split_loop make fuel b c i = Some l ->
  split_loop make fuel' b c i = Some l.
Proof.
  revert fuel' i l. induction fuel as [|fuel IH]; intros fuel' i l Hle H.
  - discriminate.
  - destruct fuel' as [|fuel']; [lia|]. simpl in *.
    destruct (i <? m_size b); [|exact H].
    destruct (split_loop make fuel b c (SizeT.add i c)) as [rest|] eqn:E;
      [|discriminate].
    rewrite (IH fuel' _ rest) by (lia || assumption). exact H.
Qed.

(** The calls of [T]'s constructor the loop makes from iteration [k] on. *)
Lemma split_loop_from b c fuel k :
  0 < c < SizeT.modulus -> 0 <= m_size b <= SizeT.max_size ->
  0 <= k <= chunk_count (m_size b) c ->
  (Z.to_nat (chunk_count (m_size b) c - k) < fuel)%nat ->
  split_loop make fuel b c (k * c)
  = Some ((fun j => make (m_offset b + j * c) c)
            <$> seqZ k (chunk_count (m_size b) c - k)).
Proof.
  intros Hc HS. revert k.
  pose proof SizeTFacts.modulus_eq. pose proof SizeTFacts.max_size_eq.
  induction fuel as [|fuel IH]; intros k Hk Hfuel; [lia|].
  simpl. destruct (k * c <? m_size b) eqn:E.
  - assert (k < chunk_count (m_size b) c)
      by (apply chunk_count_above; lia).
    assert (k * c + c < SizeT.modulus) by nia.
    rewrite SizeTFacts.add_small by nia.
    replace (k * c + c) with ((k + 1) * c) by lia.
    rewrite IH by lia. cbn [mbind option_bind].
    rewrite (seqZ_cons k) by lia.
    replace (Z.succ k) with (k + 1) by lia.
    replace (Z.pred (chunk_count (m_size b) c - k))
      with (chunk_count (m_size b) c - (k + 1)) by lia.
    reflexivity.
  - assert (chunk_count (m_size b) c <= k)
      by (apply chunk_count_below; lia).
    rewrite seqZ_nil by lia. reflexivity.
Qed.

Lemma split_calls b c :
  0 < c < SizeT.modulus -> 0 <= m_size b <= SizeT.max_size ->
  split make (S (Z.to_nat (chunk_count (m_size b) c))) c b
  = Some ((fun j => make (m_offset b + j * c) c)
            <$> seqZ 0 (chunk_count (m_size b) c)).
Proof.
  intros Hc HS. unfold split.
  pose proof (chunk_count_nonneg (m_size b) c).
  replace 0 with (0 * c) at 1 by lia.
  rewrite split_loop_from by lia.
  rewrite Z.sub_0_r. reflexivity.
Qed.

(** Whatever the fuel, a finished [split] made exactly these calls. *)
Lemma split_result b c fuel l :
  0 < c < SizeT.modulus -> 0 <= m_size b <= SizeT.max_size ->
  split make fuel c b = Some l ->
  l = (fun j => make (m_offset b + j * c) c)
        <$> seqZ 0 (chunk_count (m_size b) c).
Proof.
  intros Hc HS H.
  pose proof (split_calls b c Hc HS) as Hcalls.
  unfold split in *.
  set (f := S (Z.to_nat (chunk_count (m_size b) c))) in *.
  apply (split_loop_mono fuel (Nat.max fuel f)) in H; [|lia].
  apply (split_loop_mono f (Nat.max fuel f)) in Hcalls; [|lia].
  congruence.
Qed.
End Generic.

(** C10, amended.  For a committed size [S] that a vector can hold
    ([S <= max_size]) and a chunk size [c > 0], [split c] calls the chunk constructor exactly [ceil (S / c)]
    times, in order, the [j]-th time with the pointer [data() + j * c] and
    the length [c]: every chunk is built at full length.  When [c] does not
    divide [S], the last chunk starts inside the committed region and its
    [c] bytes reach past the end of that region. *)
Theorem split_trailing_chunk {T : Type} (make : Z -> Z -> T) b c :
  0 < c < SizeT.modulus -> 0 <= size b <= SizeT.max_size ->
  let k := chunk_count (size b) c in
  (size b <= k * c /\ (0 < size b -> (k - 1) * c < size b)) /\
  (exists fuel,
     split make fuel c b
     = Some ((fun j => make (data b + j * c) c) <$> seqZ 0 k)) /\
  (forall fuel l, split make fuel c b = Some l -> Z.of_nat (length l) = k) /\
  (size b mod c <> 0 ->
     0 < k /\
     data b + (k - 1) * c < data b + size b /\
     data b + size b < data b + (k - 1) * c + c).
Proof.
  intros Hc HS k. subst k. unfold size, data in *.
  pose proof (chunk_count_nonneg (m_size b) c) as Hk.
  pose proof (chunk_count_covers (m_size b) c) as Hcov.
  repeat split.
  - apply Hcov; lia.
  - intros Hpos. apply chunk_count_tight; lia.
  - eexists. apply split_calls; assumption.
  - intros fuel l H. apply split_result in H; [|assumption..].
    subst l. rewrite length_fmap, length_seqZ. lia.
  - assert (m_size b <> 0) by (intros E; rewrite E in *; auto).
    pose proof (chunk_count_above (m_size b) c 0). lia.
  - assert (m_size b <> 0) by (intros E; rewrite E in *; auto).
    pose proof (chunk_count_tight (m_size b) c). lia.
  - pose proof (chunk_count_exact (m_size b) c). lia.
Qed.

(** Three committed bytes split by two: two chunks, the second built from
    the bytes 2 and 3 although only bytes 0 to 2 are committed. *)
Lemma split_trailing_chunk_witness :
  (exists fuel,
     split pair fuel 2 Buffer.three_of_four = Some [(0, 2); (2, 2)]) /\
  data three_of_four + size three_of_four < data three_of_four + (2 - 1) * 2 + 2.
Proof.
  destruct (split_trailing_chunk pair Buffer.three_of_four 2)
    as (_ & H & _ & Hlast).
  - rewrite SizeTFacts.modulus_eq. lia.
  - rewrite SizeTFacts.max_size_eq. simpl. lia.
  - split; [exact H|].
    apply Hlast. vm_compute. discriminate.
Defined.

(** C10 as stated fails for a committed size no vector can hold, which the
    unchecked [commit] can publish: after [commit (2^64 - 1)] on an empty
    buffer, [split (2^63)] should give [ceil (S / c) = 2] chunks, but the
    loop counter goes 0, [2^63], and wraps to 0 again: [split] never
    returns. *)
Lemma split_counter_wraps_forever :
  reachable (commit (2 ^ 64 - 1) (Buffer 0)) /\
  0 < 2 ^ 63 /\
  chunk_count (size (commit (2 ^ 64 - 1) (Buffer 0))) (2 ^ 63) = 2 /\
  forall fuel, split pair fuel (2 ^ 63) (commit (2 ^ 64 - 1) (Buffer 0)) = None.
Proof.
  split.
  { apply (reach_Buffer 0 [Commit (2 ^ 64 - 1)]).
    - unfold SizeT.in_range. rewrite SizeTFacts.modulus_eq. lia.
    - constructor; [|constructor]. cbn [call_arg].
      unfold SizeT.in_range. rewrite SizeTFacts.modulus_eq. lia. }
  split; [lia|]. split; [reflexivity|].
  change (commit (2 ^ 64 - 1) (Buffer 0))
    with (Buffer.mk [] 18446744073709551615 0 0).
  change (2 ^ 63) with 9223372036854775808.
  assert (E0 : SizeT.add 0 9223372036854775808 = 9223372036854775808)
    by reflexivity.
  assert (E1 : SizeT.add 9223372036854775808 9223372036854775808 = 0)
    by reflexivity.
  assert (H : forall fuel,
             split_loop pair fuel (Buffer.mk [] 18446744073709551615 0 0)
               9223372036854775808 0 = None /\
             split_loop pair fuel (Buffer.mk [] 18446744073709551615 0 0)
               9223372036854775808 9223372036854775808 = None).
  { induction fuel as [|fuel [IH0 IH1]]; [split; reflexivity|].
    split; cbn [split_loop m_size m_offset].
    - rewrite E0, IH1. reflexivity.
    - rewrite E1, IH0. reflexivity. }
  intros fuel. apply H.
Qed.

(** *** Chunks as [AudioBuffer]s *)

Lemma load_concat v p n m a a' :
  load v p n = Some a -> load v (p + n) m = Some a' ->
  load v p (n + m) = Some (a ++ a').
Proof.
  intros H1 H2.
  apply load_Some in H1 as (Hp & Hn & Hb & ->).
  apply load_Some in H2 as (_ & Hm & Hb' & ->).
  rewrite load_in_bounds by lia. f_equal.
  replace (Z.to_nat (n + m)) with (Z.to_nat n + Z.to_nat m)%nat by lia.
  rewrite <- take_take_drop, drop_drop.
  replace (Z.to_nat (p + n)) with (Z.to_nat p + Z.to_nat n)%nat by lia.
  reflexivity.
Qed.

(** A chunk built inside the storage holds exactly the bytes it was
    pointed at, all of them committed. *)
Lemma AudioBuffer_chunk storage p c :
  0 <= p -> 0 <= c -> p + c <= vsize storage ->
  exists ch,
    AudioBuffer storage p c = Some ch /\
    size ch = c /\ capacity ch = c /\
    committed ch = load storage p c.
Proof.
  intros Hp Hc Hb. unfold AudioBuffer, Buffer_copy.
  rewrite load_in_bounds by lia. cbn [mbind option_bind].
  set (bytes := take (Z.to_nat c) (drop (Z.to_nat p) storage)).
  assert (Hbytes : vsize bytes = c).
  { subst bytes. unfold vsize in *. rewrite length_take, length_drop. lia. }
  cbn [m_buffer set_buffer set_size default_members].
  assert (Hr : vsize (resize [] (Z.max c 0)) = c)
    by (rewrite vsize_resize; lia).
  destruct (store (resize [] (Z.max c 0)) 0 bytes) as [v|] eqn:Hst.
  - cbn [mbind option_bind]. eexists. split; [reflexivity|].
    pose proof (store_vsize _ _ _ _ Hst) as Hv.
    apply load_store_same in Hst.
    unfold size, capacity, committed, data. cbn.
    rewrite Hbytes in Hst. repeat split; try lia. exact Hst.
  - rewrite store_in_bounds in Hst by lia. discriminate.
Qed.

(** The bytes of [n] consecutive chunks are [n * c] consecutive bytes of
    the storage. *)
Lemma chunk_bytes_range storage o c (n : nat) k :
  0 <= o -> 0 < c -> 0 <= k ->
  o + (k + Z.of_nat n) * c <= vsize storage ->
  chunk_bytes ((fun j => AudioBuffer storage (o + j * c) c)
                 <$> seqZ k (Z.of_nat n))
  = load storage (o + k * c) (Z.of_nat n * c).
Proof.
  intros Ho Hc. revert k.
  induction n as [|n IH]; intros k Hk Hb.
  - simpl. rewrite load_in_bounds by nia. reflexivity.
  - rewrite seqZ_cons by lia. cbn [fmap list_fmap chunk_bytes].
    destruct (AudioBuffer_chunk storage (o + k * c) c)
      as (ch & -> & _ & _ & Hch); try nia.
    cbn [mbind option_bind]. rewrite Hch.
    rewrite (load_in_bounds storage (o + k * c) c) by nia.
    cbn [mbind option_bind].
    replace (Z.pred (Z.of_nat (S n))) with (Z.of_nat n) by lia.
    change (list_fmap Z (option t) ?f ?l) with (f <$> l).
    rewrite IH by lia.
    rewrite (load_in_bounds storage (o + Z.succ k * c)) by nia.
    cbn [mbind option_bind].
    symmetry.
    replace (Z.of_nat (S n) * c) with (c + Z.of_nat n * c) by lia.
    apply load_concat.
    + apply load_in_bounds; nia.
    + replace (o + k * c + c) with (o + Z.succ k * c) by lia.
      apply load_in_bounds; nia.
Qed.

(** C8 fails where the chunk size does not divide the committed size:
    splitting three committed bytes by two gives the chunks [01 02] and
    [03 00], four bytes in all, the last one from behind the committed
    region. *)
Lemma split_overreads_three_of_four :
  Buffer_copy [x01; x02; x03] 0 3 4 = Some three_of_four /\
  committed three_of_four = Some [x01; x02; x03] /\
  (exists chunks,
     split_AudioBuffer 3 2 three_of_four = Some chunks /\
     chunk_bytes chunks = Some [x01; x02; x03; x00]) /\
  ~ split_reproduces 2 three_of_four.
Proof.
  split; [reflexivity|]. split; [reflexivity|]. split.
  - eexists. split; reflexivity.
  - intros (fuel & chunks & Hsplit & Hbytes).
    unfold split_AudioBuffer in Hsplit.
    apply split_result in Hsplit.
    + subst chunks. vm_compute in Hbytes. discriminate.
    + rewrite SizeTFacts.modulus_eq. lia.
    + rewrite SizeTFacts.max_size_eq. simpl. lia.
Qed.

(** C8, amended.  Let the storage hold [ceil (S / c) * c] bytes from the
    committed offset on.  Then [split c] finishes with [ceil (S / c)]
    chunks whose bytes, concatenated, are those [ceil (S / c) * c] bytes of
    storage: the committed bytes followed by the [ceil (S / c) * c - S]
    bytes behind them.  The concatenation is exactly the committed byte
    sequence if and only if [c] divides [S]. *)
Theorem split_concat b c :
  in_range b -> 0 < c < SizeT.modulus ->
  data b + chunk_count (size b) c * c <= capacity b ->
  exists fuel chunks,
    split_AudioBuffer fuel c b = Some chunks /\
    Z.of_nat (length chunks) = chunk_count (size b) c /\
    chunk_bytes chunks
    = load (m_buffer b) (data b) (chunk_count (size b) c * c) /\
    (exists cm extra,
       committed b = Some cm /\
       load (m_buffer b) (data b + size b)
            (chunk_count (size b) c * c - size b) = Some extra /\
       chunk_bytes chunks = Some (cm ++ extra)) /\
    (chunk_bytes chunks = committed b <-> size b mod c = 0).
Proof.
  intros (Hs & Ho & Ha & Hcap) Hc Hcover.
  unfold size, data, capacity, SizeT.in_range in *.
  pose proof SizeTFacts.modulus_eq. pose proof SizeTFacts.max_size_eq.
  set (k := chunk_count (m_size b) c) in *.
  assert (Hk : 0 <= k) by (apply chunk_count_nonneg; lia).
  assert (Hcov : m_size b <= k * c) by (apply chunk_count_covers; lia).
  assert (Hbytes :
    chunk_bytes ((fun j => AudioBuffer (m_buffer b) (m_offset b + j * c) c)
                   <$> seqZ 0 k)
    = load (m_buffer b) (m_offset b) (k * c)).
  { rewrite <- (Z2Nat.id k Hk).
    rewrite chunk_bytes_range by lia.
    f_equal. lia. }
  exists (S (Z.to_nat k)),
    ((fun j => AudioBuffer (m_buffer b) (m_offset b + j * c) c)
       <$> seqZ 0 k).
  split.
  { unfold split_AudioBuffer. apply split_calls; lia. }
  split.
  { rewrite length_fmap, length_seqZ. lia. }
  split; [exact Hbytes|].
  assert (Hcm : committed b
                = Some (take (Z.to_nat (m_size b))
                             (drop (Z.to_nat (m_offset b)) (m_buffer b))))
    by (apply load_in_bounds; lia).
  assert (Hex : load (m_buffer b) (m_offset b + m_size b) (k * c - m_size b)
                = Some (take (Z.to_nat (k * c - m_size b))
                          (drop (Z.to_nat (m_offset b + m_size b))
                                (m_buffer b))))
    by (apply load_in_bounds; lia).
  assert (Hcat : load (m_buffer b) (m_offset b) (k * c)
                 = Some (take (Z.to_nat (m_size b))
                           (drop (Z.to_nat (m_offset b)) (m_buffer b)) ++
                         take (Z.to_nat (k * c - m_size b))
                           (drop (Z.to_nat (m_offset b + m_size b))
                                 (m_buffer b)))).
  { replace (k * c) with (m_size b + (k * c - m_size b)) at 1 by lia.
    apply load_concat; assumption. }
  split.
  { eexists. eexists. split; [exact Hcm|]. split; [exact Hex|].
    rewrite Hbytes. exact Hcat. }
  rewrite Hbytes. rewrite <- (chunk_count_exact (m_size b) c) by lia.
  fold k. split.
  - intros Heq. rewrite Hcat, Hcm in Heq.
    injection Heq as Hlen. apply (f_equal length) in Hlen.
    rewrite length_app in Hlen.
    apply load_length in Hex. unfold vsize in Hex. lia.
  - intros Heq. unfold committed, data, size. rewrite Heq. reflexivity.
Qed.

Lemma split_concat_witness :
  exists fuel chunks,
    split_AudioBuffer fuel 2 three_of_four = Some chunks /\
    chunk_bytes chunks = load (m_buffer three_of_four) 0 (2 * 2).
Proof.
  destruct (split_concat three_of_four 2) as (fuel & chunks & H1 & _ & H2 & _).
  - unfold in_range, SizeT.in_range, vsize.
    rewrite SizeTFacts.modulus_eq, SizeTFacts.max_size_eq. simpl. lia.
  - rewrite SizeTFacts.modulus_eq. lia.
  - vm_compute. discriminate.
  - exists fuel, chunks. split; [exact H1|exact H2].
Defined.

End SplitFacts.

(** ** Properties of negotiation and linking *)

Module NodeFacts.

Import Node.

Section Negotiation.
Context {Cap R : Type} (intersect : Cap -> Cap -> R) (isValid : R -> bool).

Abbreviation canIntersect := (canIntersect intersect isValid).
Abbreviation canIntersect_inner := (canIntersect_inner intersect isValid).
Abbreviation examine := (examine intersect isValid).
Abbreviation examine_inner := (examine_inner intersect isValid).
Abbreviation intersects := (intersects intersect isValid).
Abbreviation decided_by := (decided_by intersect isValid).
Abbreviation link := (link intersect isValid).

Lemma canIntersect_inner_true i out :
  canIntersect_inner i out = true <->
  exists o, In o out /\ isValid (intersect i o) = true.
Proof.
  induction out as [|o out IH]; simpl.
  - split; [discriminate|]. intros (o & [] & _).
  - destruct (isValid (intersect i o)) eqn:E.
    + split; [|reflexivity]. intros _. exists o. auto.
    + rewrite IH. split.
      * intros (o' & Hin & Hv). exists o'. auto.
      * intros (o' & [->|Hin] & Hv); [congruence|]. exists o'. auto.
Qed.

Lemma canIntersect_true A B :
  canIntersect A B = true <->
  exists a b, In a A /\ In b B /\ isValid (intersect a b) = true.
Proof.
  induction A as [|a A IH]; simpl.
  - split; [discriminate|]. intros (a & b & [] & _).
  - destruct (canIntersect_inner a B) eqn:E.
    + split; [|reflexivity]. intros _.
      apply canIntersect_inner_true in E as (b & Hb & Hv).
      exists a, b. auto.
    + rewrite IH. split.
      * intros (a' & b & Ha & Hb & Hv). exists a', b. auto.
      * intros (a' & b & [->|Ha] & Hb & Hv).
        -- assert (canIntersect_inner a' B = true)
             by (apply canIntersect_inner_true; eauto).
           congruence.
        -- exists a', b. auto.
Qed.

(** C5.  Given that the pairwise intersection is symmetric,
    [canIntersect A B] and [canIntersect B A] are the same. *)
Theorem canIntersect_symmetric A B :
  (forall a b, intersect a b = intersect b a) ->
  canIntersect A B = canIntersect B A.
Proof.
  intros Hsym. apply eq_true_iff_eq.
  rewrite !canIntersect_true. split.
  - intros (a & b & Ha & Hb & Hv). exists b, a.
    rewrite Hsym. auto.
  - intros (b & a & Hb & Ha & Hv). exists a, b.
    rewrite Hsym. auto.
Qed.

(** *** Order of examination *)

Lemma examine_inner_fst i out :
  fst (examine_inner i out) = canIntersect_inner i out.
Proof.
  induction out as [|o out IH]; simpl; [reflexivity|].
  destruct (isValid (intersect i o)); [reflexivity|].
  destruct (examine_inner i out). exact IH.
Qed.

Lemma examine_fst A B : fst (examine A B) = canIntersect A B.
Proof.
  induction A as [|a A IH]; simpl; [reflexivity|].
  rewrite <- examine_inner_fst.
  destruct (examine_inner a B) as [r seen]. simpl.
  destruct r; [reflexivity|].
  destruct (examine A B). exact IH.
Qed.

Lemma examine_inner_decided i out :
  decided_by (map (pair i) out)
             (fst (examine_inner i out)) (snd (examine_inner i out)).
Proof.
  induction out as [|o out IH]; simpl.
  - exists []. split; [reflexivity|]. split; [reflexivity|constructor].
  - destruct (isValid (intersect i o)) eqn:E; simpl.
    + exists (map (pair i) out). split; [reflexivity|].
      exists [], (i, o). split; [reflexivity|].
      split; [exact E|constructor].
    + destruct (examine_inner i out) as [r seen]. simpl in *.
      destruct IH as (rest & Hall & Hr).
      exists rest. split; [rewrite Hall; reflexivity|].
      assert (Hno : ~ intersects (i, o))
        by (unfold Node.intersects; simpl; congruence).
      destruct r.
      * destruct Hr as (before & x & -> & Hx & Hbefore).
        exists ((i, o) :: before), x.
        split; [reflexivity|]. split; [exact Hx|].
        constructor; assumption.
      * destruct Hr as (-> & Hseen).
        split; [reflexivity|]. constructor; assumption.
Qed.

Lemma examine_decided A B :
  decided_by (pairs A B) (fst (examine A B)) (snd (examine A B)).
Proof.
  induction A as [|a A IH]; simpl.
  - exists []. split; [reflexivity|]. split; [reflexivity|constructor].
  - pose proof (examine_inner_decided a B) as Hin.
    destruct (examine_inner a B) as [r seen]. simpl in Hin.
    destruct Hin as (rest & Hall & Hr).
    destruct r; simpl.
    + exists (rest ++ pairs A B).
      split; [rewrite Hall, <- app_assoc; reflexivity|exact Hr].
    + destruct Hr as (-> & Hseen). rewrite app_nil_r in Hall.
      destruct (examine A B) as [r' seen']. simpl in *.
      destruct IH as (rest' & Hall' & Hr').
      exists rest'.
      split; [rewrite Hall, Hall', app_assoc; reflexivity|].
      destruct r'.
      * destruct Hr' as (before & x & -> & Hx & Hbefore).
        exists (seen ++ before), x.
        split; [rewrite app_assoc; reflexivity|].
        split; [exact Hx|]. apply Forall_app. auto.
      * destruct Hr' as (-> & Hseen').
        split; [reflexivity|]. apply Forall_app. auto.
Qed.

(** C6.  [canIntersect A B] is [true] if and only if some [a] in [A]
    and [b] in [B] have a valid intersection.  The pairs are examined
    in declaration order ([A] outermost), and the answer [true] is
    given at the first intersecting pair: nothing after it is
    examined. *)
Theorem canIntersect_first_pair A B :
  (canIntersect A B = true <->
   exists a b, In a A /\ In b B /\ isValid (intersect a b) = true) /\
  fst (examine A B) = canIntersect A B /\
  decided_by (pairs A B) (canIntersect A B) (snd (examine A B)).
Proof.
  split; [apply canIntersect_true|].
  split; [apply examine_fst|].
  rewrite <- examine_fst. apply examine_decided.
Qed.

(** *** Linking *)

(** C7.  [link prev next] exists only when
    [canIntersect (outCaps of prev) (inCaps of next)] holds; when it
    does, the store afterwards is the store before with [prev]'s
    [m_next] set to [next]: [prev] keeps its class, every other stage
    is as it was.  Conversely, for two stages of the store whose
    capability arrays have one type and intersect, [link] does succeed and
    gives exactly the store with [next] recorded as [prev]'s successor. *)
Theorem link_gate_and_effect prev next (h : gmap nat (Node.t Cap)) :
  (forall h',
     link prev next h = Some h' ->
     exists n1 n2 out inc,
       h !! prev = Some n1 /\ h !! next = Some n2 /\
       outCaps (class_of n1) = Some out /\
       inCaps (class_of n2) = Some inc /\
       canIntersect out inc = true /\
       h' = <[prev := set_next (Some next) n1]> h /\
       h' !! prev = Some (Node.mk (class_of n1) (Some next)) /\
       (forall a, a <> prev -> h' !! a = h !! a)) /\
  (forall n1 n2 out inc,
     h !! prev = Some n1 -> h !! next = Some n2 ->
     outCaps (class_of n1) = Some out ->
     inCaps (class_of n2) = Some inc ->
     length out = length inc ->
     canIntersect out inc = true ->
     link prev next h = Some (<[prev := set_next (Some next) n1]> h)).
Proof.
  split.
  - unfold Node.link. intros h' H.
    destruct (h !! prev) as [n1|] eqn:H1; [|discriminate].
    destruct (h !! next) as [n2|] eqn:H2; [|discriminate].
    cbn [mbind option_bind] in H.
    destruct (outCaps (class_of n1)) as [out|] eqn:Ho; [|discriminate].
    destruct (inCaps (class_of n2)) as [inc|] eqn:Hi; [|discriminate].
    cbn [mbind option_bind] in H.
    destruct (bool_decide (length out = length inc)); [|discriminate].
    destruct (canIntersect out inc) eqn:Hc; [|discriminate].
    simpl in H. injection H as <-.
    exists n1, n2, out, inc.
    repeat split; try assumption; try reflexivity.
    + apply lookup_insert_eq.
    + intros a Ha. apply lookup_insert_ne. congruence.
  - intros n1 n2 out inc H1 H2 Ho Hi Hlen Hc.
    unfold Node.link. rewrite H1, H2. cbn [mbind option_bind].
    rewrite Ho, Hi. cbn [mbind option_bind].
    rewrite Hc, bool_decide_eq_true_2 by exact Hlen. reflexivity.
Qed.

End Negotiation.

End NodeFacts.

(** ** Properties of the capability model *)

Module AudioCapsFacts.

Import AudioCaps.

Lemma intersect_field_sym {A : Type} `{EqDecision A} (x y : option A) :
  intersect_field x y = intersect_field y x.
Proof.
  destruct x as [a|], y as [b|]; simpl; try reflexivity.
  destruct (decide (a = b)) as [->|Hne].
  - destruct (decide (b = b)); [reflexivity|congruence].
  - destruct (decide (b = a)); [congruence|reflexivity].
Qed.

Lemma intersect_sym a b : intersect a b = intersect b a.
Proof.
  unfold intersect.
  rewrite (intersect_field_sym (codec a)), (intersect_field_sym (rate a)),
    (intersect_field_sym (channels a)).
  reflexivity.
Qed.

End AudioCapsFacts.

(** ** Linking two concrete stages *)

Module NodeExamplesFacts.

Import Node AudioCaps NodeExamples AudioCapsFacts.

Lemma canIntersect_symmetric_witness :
  canIntersect intersect isValid AirPlay2Source_outCaps AppSource_outCaps
  = canIntersect intersect isValid AppSource_outCaps AirPlay2Source_outCaps.
Proof.
  apply (NodeFacts.canIntersect_symmetric intersect isValid).
  exact intersect_sym.
Defined.

Lemma link_two_stages :
  link intersect isValid 1 2 two_stages
  = Some (<[1%nat := Node.mk source_class (Some 2%nat)]> two_stages).
Proof. reflexivity. Qed.

(** A source that declares 44100 Hz does not link to a sink that accepts
    only 48000 Hz. *)
Lemma link_rejects_rate_mismatch :
  link intersect isValid 1 2
    (<[1%nat := Node.mk source_class None]>
       (<[2%nat := Node.mk rate48000_sink_class None]> ∅))
  = None.
Proof. reflexivity. Qed.

(** The source at 1 and the sink at 2 can be linked, and linking them
    records 2 as the successor of 1. *)
Lemma link_gate_and_effect_witness :
  link intersect isValid 1 2 two_stages
  = Some (<[1%nat := Node.mk source_class (Some 2%nat)]> two_stages) /\
  exists out inc,
    outCaps source_class = Some out /\ inCaps sink_class = Some inc /\
    canIntersect intersect isValid out inc = true.
Proof.
  destruct (NodeFacts.link_gate_and_effect intersect isValid 1 2 two_stages)
    as [Hfwd Hconv].
  assert (Hlink :
    link intersect isValid 1 2 two_stages
    = Some (<[1%nat := Node.mk source_class (Some 2%nat)]> two_stages)).
  { apply (Hconv (Node.mk source_class None) (Node.mk sink_class None)
             AirPlay2Source_outCaps [AudioCaps.mk None None None]);
      reflexivity. }
  split; [exact Hlink|].
  destruct (Hfwd _ Hlink)
    as (n1 & n2 & out & inc & H1 & H2 & Ho & Hi & Hc & _).
  vm_compute in H1. injection H1 as <-.
  vm_compute in H2. injection H2 as <-.
  exists out, inc. auto.
Defined.

End NodeExamplesFacts.

(** ** Properties of [AlsaSink::onStop] *)

Module AlsaSinkFacts.

Import AlsaSink.

Section Sink.
Context {AudioConf : Type}.

(** C9.  Calling [onStop] twice leaves the sink in the state one call
    leaves it in: the handle is null after the first call, so the
    second call touches neither the sink nor the device; all it does is
    write its log line. *)
Theorem onStop_idempotent (s : AlsaSink.t AudioConf) :
  m_pcm (fst (onStop s)) = None /\
  fst (onStop (fst (onStop s))) = fst (onStop s) /\
  snd (onStop (fst (onStop s))) = [LOG_F INFO "Device flushed"].
Proof.
  unfold onStop. destruct s as [[pcm|] dev conf]; simpl; auto.
Qed.
End Sink.

End AlsaSinkFacts.

(** ** More about [Buffer]: the window [acquire] hands out *)

Module BufferWindow.

Import Mem Buffer MemFacts BufferFacts.

(** Two storages that agree on a range read the same there. *)
Lemma load_ext v v' p n :
  0 <= p -> 0 <= n -> p + n <= vsize v -> p + n <= vsize v' ->
  (forall i : nat, p <= Z.of_nat i < p + n -> v' !! i = v !! i) ->
  load v' p n = load v p n.
Proof.
  intros Hp Hn Hb Hb' Hext.
  rewrite !load_in_bounds by lia. f_equal.
  apply list_eq. intros i.
  destruct (decide (i < Z.to_nat n)%nat) as [Hi|Hi].
  - rewrite !lookup_take_lt, !lookup_drop by lia.
    apply Hext. lia.
  - rewrite !lookup_take_ge by lia. reflexivity.
Qed.

(** What [acquire] does to a buffer, whichever branch it takes: the result
    is the old buffer with zero bytes appended to the storage and possibly
    another recorded offset. *)
Lemma acquire_shape b n :
  in_range b -> 0 <= n ->
  m_offset b + m_size b + n < SizeT.modulus ->
  exists (k : nat) (a : Z),
    snd (acquire n b)
    = mk (m_buffer b ++ replicate k x00) (m_size b) (m_offset b) a.
Proof.
  intros Hr Hn Hsum.
  destruct (Z_le_gt_dec n (m_offset b)) as [Hfront|Hbehind].
  { rewrite acquire_front by lia. exists 0%nat, (m_acquiredOffset b).
    destruct b. simpl. rewrite app_nil_r. reflexivity. }
  destruct (contained_dec b) as [Hin|Hout].
  - destruct (Z_le_gt_dec n (vsize (m_buffer b) - m_offset b - m_size b)).
    + rewrite acquire_back by (assumption || lia).
      exists 0%nat, (m_offset b + m_size b).
      destruct b. simpl. rewrite app_nil_r. reflexivity.
    + rewrite acquire_grow by (assumption || lia).
      eexists _, (m_offset b + m_size b). reflexivity.
  - rewrite acquire_overrun by (assumption || lia).
    exists 0%nat, (m_offset b + m_size b).
    destruct b. simpl. rewrite app_nil_r. reflexivity.
Qed.

(** X1.  [acquire] never moves, shrinks or rewrites the storage: afterwards
    the storage is the old storage followed by zero or more zero bytes, and
    size and offset are the old ones.  This holds in every state, also one
    whose committed region overruns the storage. *)
Theorem acquire_appends_zeros b n :
  in_range b -> 0 <= n ->
  m_offset b + m_size b + n < SizeT.modulus ->
  exists k : nat,
    m_buffer (snd (acquire n b)) = m_buffer b ++ replicate k x00 /\
    m_size (snd (acquire n b)) = m_size b /\
    m_offset (snd (acquire n b)) = m_offset b.
Proof.
  intros Hr Hn Hsum.
  destruct (acquire_shape b n Hr Hn Hsum) as (k & a & ->).
  exists k. auto.
Qed.

Lemma acquire_appends_zeros_witness :
  exists k : nat,
    m_buffer (snd (acquire 6 sample)) = m_buffer sample ++ replicate k x00.
Proof.
  destruct (acquire_appends_zeros sample 6) as (k & H & _).
  - exact sample_in_range.
  - lia.
  - concrete.
  - exists k. exact H.
Defined.

(** The window of a request served on a well-formed buffer. *)
Lemma acquire_window b n :
  in_range b -> contained b -> 0 <= n ->
  m_offset b + m_size b + n < SizeT.modulus ->
  0 <= fst (acquire n b) /\
  fst (acquire n b) + n <= capacity (snd (acquire n b)) /\
  (fst (acquire n b) + n <= m_offset b \/
   m_offset b + m_size b <= fst (acquire n b)).
Proof.
  intros Hr Hin Hn Hsum.
  pose proof Hr as (Hs & Ho & Ha & Hc).
  unfold contained, capacity, size, SizeT.in_range in *.
  destruct (Z_le_gt_dec n (m_offset b)) as [Hfront|Hbehind].
  { rewrite acquire_front by lia. simpl. lia. }
  destruct (Z_le_gt_dec n (vsize (m_buffer b) - m_offset b - m_size b)).
  - rewrite acquire_back by (assumption || lia). simpl. lia.
  - rewrite acquire_grow by (assumption || lia). simpl.
    rewrite vsize_app. unfold vsize in *. rewrite length_replicate. lia.
Qed.

(** X2.  On a buffer with [size_t]-valued members whose committed region
    lies in its storage, and for a request [n] with [offset + size() + n]
    representable in [size_t], the [n] bytes [acquire n] hands out lie
    inside the storage after the call and do not overlap the committed
    region: they end before it starts or start where it ends. *)
Theorem acquire_window_exclusive b n :
  in_range b -> contained b -> 0 <= n ->
  m_offset b + size b + n < SizeT.modulus ->
  let p := fst (acquire n b) in
  let b' := snd (acquire n b) in
  0 <= p /\ p + n <= capacity b' /\
  (p + n <= data b' \/ data b' + size b' <= p).
Proof.
  intros Hr Hin Hn Hsum p b'. subst p b'. unfold size in Hsum.
  destruct (acquire_window b n Hr Hin Hn Hsum) as (H0 & H1 & H2).
  destruct (acquire_shape b n Hr Hn Hsum) as (k & a & E).
  unfold data, size. rewrite E in *. simpl. auto.
Qed.

Lemma acquire_window_exclusive_witness :
  fst (acquire 6 sample) + 6 <= capacity (snd (acquire 6 sample)).
Proof.
  apply (acquire_window_exclusive sample 6).
  - exact sample_in_range.
  - concrete.
  - lia.
  - concrete.
Defined.

(** X3.  On a buffer with [size_t]-valued members whose committed region
    lies in its storage, and for a request [n] with [offset + size() + n]
    representable in [size_t]: writing up to [n] bytes through the pointer
    [acquire n] returned succeeds and leaves the committed view as it was
    before the request: the same [size()], the same [data()], the same
    bytes. *)
Theorem write_in_window_keeps_committed b n bs :
  in_range b -> contained b -> 0 <= n ->
  m_offset b + size b + n < SizeT.modulus ->
  vsize bs <= n ->
  exists b2,
    write (fst (acquire n b)) bs (snd (acquire n b)) = Some b2 /\
    size b2 = size b /\ data b2 = data b /\
    committed b2 = committed b.
Proof.
  intros Hr Hin Hn Hsum Hbs. unfold size in Hsum.
  destruct (acquire_window b n Hr Hin Hn Hsum) as (H0 & H1 & H2).
  destruct (acquire_shape b n Hr Hn Hsum) as (k & a & E).
  pose proof Hr as (Hs & Ho & Ha & Hc).
  pose proof (vsize_nonneg bs) as Hbs0.
  unfold contained, capacity, size, SizeT.in_range in *.
  set (p := fst (acquire n b)) in *.
  rewrite E in *. cbn [m_buffer] in H1.
  unfold write. cbn [m_buffer].
  destruct (store (m_buffer b ++ replicate k x00) p bs) as [v|] eqn:Hst;
    [|rewrite store_in_bounds in Hst by lia; discriminate].
  cbn [mbind option_bind]. eexists. split; [reflexivity|].
  split; [reflexivity|]. split; [reflexivity|].
  unfold committed, data, size. cbn.
  pose proof (store_vsize _ _ _ _ Hst) as Hv.
  rewrite vsize_app in Hv. pose proof (vsize_nonneg (replicate k x00)).
  rewrite <- (load_app_l (m_buffer b) (replicate k x00)) by lia.
  apply load_ext; try lia.
  - rewrite vsize_app. lia.
  - intros i Hi. eapply store_lookup_outside; [exact Hst|]. lia.
Qed.

Lemma write_in_window_keeps_committed_witness :
  exists b2,
    write (fst (acquire 6 sample)) [x21; x22] (snd (acquire 6 sample))
    = Some b2 /\
    committed b2 = committed sample.
Proof.
  destruct (write_in_window_keeps_committed sample 6 [x21; x22])
    as (b2 & H1 & _ & _ & H2).
  - exact sample_in_range.
  - concrete.
  - lia.
  - concrete.
  - concrete.
  - exists b2. auto.
Defined.

End BufferWindow.

(** ** More about [Buffer]: constructors, repeated requests, [split] edges *)

Module BufferEdges.

Import Mem Buffer MemFacts BufferFacts.

(** Behind the committed region, [acquire] does not read the recorded
    offset: it overwrites it. *)
Lemma acquire_ignores_recorded a b n :
  m_offset b < n -> acquire n (set_acquiredOffset a b) = acquire n b.
Proof.
  intros Hlt. unfold acquire. simpl.
  destruct (m_offset b >=? n) eqn:E; [lia|].
  destruct (SizeT.sub (SizeT.sub (vsize (m_buffer b)) (m_offset b)) (m_size b)
            >=? n); reflexivity.
Qed.

(** X4.  Asking twice is asking once: a second [acquire n] directly after
    the first returns the same pointer and changes nothing (after a grow,
    the second request fits at the back exactly). *)
Theorem acquire_twice b n :
  in_range b -> 0 <= n ->
  m_offset b + m_size b + n <= SizeT.max_size ->
  acquire n (snd (acquire n b)) = acquire n b.
Proof.
  intros Hr Hn Hsum. range_facts.
  pose proof Hr as (Hs & Ho & Ha & Hc).
  destruct (Z_le_gt_dec n (m_offset b)) as [Hfront|Hbehind].
  { rewrite (acquire_front b) by lia. cbn [snd]. apply acquire_front. lia. }
  destruct (contained_dec b) as [Hin|Hout].
  - destruct (Z_le_gt_dec n (vsize (m_buffer b) - m_offset b - m_size b)).
    + rewrite (acquire_back b) by (assumption || lia).
      cbn [snd]. rewrite acquire_ignores_recorded by lia.
      apply acquire_back; assumption || lia.
    + rewrite (acquire_grow b) by (assumption || lia).
      cbn [snd]. set (v := m_buffer b ++ _).
      assert (Hv : vsize v = m_offset b + m_size b + n).
      { subst v. rewrite vsize_app. unfold vsize. rewrite length_replicate.
        unfold contained, capacity, size, vsize, SizeT.in_range in *. lia. }
      rewrite acquire_ignores_recorded by (simpl; lia).
      rewrite acquire_back.
      * reflexivity.
      * unfold in_range, SizeT.in_range in *. simpl. lia.
      * unfold contained, capacity, size in *. simpl. lia.
      * simpl. lia.
      * simpl. lia.
  - rewrite (acquire_overrun b) by (assumption || lia).
    cbn [snd]. rewrite acquire_ignores_recorded by lia.
    apply acquire_overrun; assumption || lia.
Qed.

Lemma acquire_twice_witness :
  acquire 6 (snd (acquire 6 sample)) = acquire 6 sample.
Proof.
  apply (acquire_twice sample 6).
  - exact sample_in_range.
  - lia.
  - concrete.
Defined.



(** X6.  The first request on a fresh [Buffer(n)] is always served at the
    start of the storage; the storage is allocated anew only when the
    request exceeds the [n] bytes reserved, and then holds exactly the
    request.  All of it is still zero and nothing is committed. *)
Theorem fresh_buffer_first_request n m :
  0 <= n <= SizeT.max_size -> 0 <= m <= SizeT.max_size ->
  fst (acquire m (Buffer n)) = 0 /\
  m_buffer (snd (acquire m (Buffer n)))
  = replicate (Z.to_nat (Z.max n m)) x00 /\
  size (snd (acquire m (Buffer n))) = 0 /\
  data (snd (acquire m (Buffer n))) = 0.
Proof.
  intros Hn Hm. range_facts.
  assert (Hbuf : m_buffer (Buffer n) = replicate (Z.to_nat n) x00).
  { unfold Buffer, resize. simpl. rewrite take_nil. simpl.
    f_equal. lia. }
  assert (Hsz : m_size (Buffer n) = 0) by reflexivity.
  assert (Hoff : m_offset (Buffer n) = 0) by reflexivity.
  assert (Hacq : m_acquiredOffset (Buffer n) = 0) by reflexivity.
  generalize dependent (Buffer n). intros b Hbuf Hsz Hoff Hacq.
  assert (Hcap : vsize (m_buffer b) = n).
  { rewrite Hbuf. unfold vsize. rewrite length_replicate. lia. }
  assert (Hr : in_range b).
  { unfold in_range, SizeT.in_range. rewrite Hcap, Hsz, Hoff, Hacq. lia. }
  assert (Hin : contained b).
  { unfold contained, capacity, size. rewrite Hcap, Hsz, Hoff. lia. }
  unfold size, data.
  destruct (Z_le_gt_dec m 0) as [Hz|Hpos].
  { rewrite acquire_front by lia. cbn [fst snd].
    rewrite Hbuf, Hsz, Hoff. repeat split. f_equal. lia. }
  destruct (Z_le_gt_dec m n) as [Hfit|Hgrow].
  - rewrite acquire_back by (assumption || lia). cbn.
    rewrite Hbuf, Hsz, Hoff. repeat split. f_equal. lia.
  - rewrite acquire_grow by (assumption || lia). cbn.
    rewrite Hbuf, Hsz, Hoff. repeat split.
    rewrite length_replicate, <- replicate_add. f_equal. lia.
Qed.

Lemma fresh_buffer_first_request_witness :
  fst (acquire 8 (Buffer 4)) = 0 /\
  m_buffer (snd (acquire 8 (Buffer 4))) = replicate 8 x00.
Proof.
  destruct (fresh_buffer_first_request 4 8) as (H1 & H2 & _).
  - rewrite SizeTFacts.max_size_eq. lia.
  - rewrite SizeTFacts.max_size_eq. lia.
  - split; [exact H1|exact H2].
Defined.

Lemma round_trip_behind_witness :
  exists b',
    acquire_write_commit [x21; x22; x23; x24; x25; x26] sample = Some b' /\
    committed b' = Some [x21; x22; x23; x24; x25; x26].
Proof.
  destruct (round_trip_behind sample [x21; x22; x23; x24; x25; x26])
    as (b' & H1 & _ & H2 & _).
  - exact sample_in_range.
  - concrete.
  - concrete.
  - concrete.
  - exists b'. auto.
Defined.

Section SplitEdges.
Context {T : Type} (make : Z -> Z -> T).

Lemma split_loop_zero_stuck fuel b :
  0 < m_size b -> split_loop make fuel b 0 0 = None.
Proof.
  intros Hpos. induction fuel as [|fuel IH]; [reflexivity|].
  simpl. destruct (0 <? m_size b) eqn:E; [|lia].
  change (SizeT.add 0 0) with 0. rewrite IH. reflexivity.
Qed.

(** X8.  With a chunk size of [0] the loop of [split] never advances:
    [split 0] returns (an empty list) only if nothing is committed, and on
    a buffer with committed bytes no amount of fuel lets it finish. *)
Theorem split_zero_never_finishes b :
  (0 < size b -> forall fuel, split make fuel 0 b = None) /\
  (size b <= 0 -> forall fuel, split make (S fuel) 0 b = Some []) /\
  ((exists fuel l, split make fuel 0 b = Some l) <-> size b <= 0).
Proof.
  unfold size, split. split; [|split].
  - intros Hpos fuel. apply split_loop_zero_stuck. exact Hpos.
  - intros Hz fuel. simpl. destruct (0 <? m_size b) eqn:E; [lia|reflexivity].
  - split.
    + intros (fuel & l & H).
      destruct (Z_lt_le_dec 0 (m_size b)) as [Hpos|Hz]; [|exact Hz].
      rewrite split_loop_zero_stuck in H by exact Hpos. discriminate.
    + intros Hz. exists 1%nat, []. simpl.
      destruct (0 <? m_size b) eqn:E; [lia|reflexivity].
Qed.
End SplitEdges.

End BufferEdges.

(** ** Properties of [AudioConverter<T,U>::process] *)

Module AudioConverterFacts.

Import Mem Buffer MemFacts BufferFacts AudioConverter.

Section Process.
Context {AudioConf : Type}.
Context (sizeof_T sizeof_U : Z) (cast : list byte -> list byte).
Hypothesis sizeof_T_pos : 0 < sizeof_T.
Hypothesis sizeof_U_pos : 0 < sizeof_U.
Hypothesis cast_size : forall x, vsize x = sizeof_T -> vsize (cast x) = sizeof_U.

Abbreviation convert := (convert sizeof_T sizeof_U cast).

(** The loop converts sample by sample when the source lies wholly before
    the destination: it reads only bytes it has not written. *)
Lemma convert_disjoint (count : nat) to from v src :
  0 <= from -> from + Z.of_nat count * sizeof_T <= to ->
  to + Z.of_nat count * sizeof_U <= vsize v ->
  load v from (Z.of_nat count * sizeof_T) = Some src ->
  exists v',
    convert count to from v = Some v' /\
    vsize v' = vsize v /\
    load v' to (Z.of_nat count * sizeof_U)
    = Some (concat (cast <$> samples sizeof_T count src)) /\
    forall i : nat,
      (Z.of_nat i < to \/ to + Z.of_nat count * sizeof_U <= Z.of_nat i) ->
      v' !! i = v !! i.
Proof.
  revert to from v src.
  induction count as [|count IH]; intros to from v src Hfrom Hsep Hfit Hsrc.
  - exists v. simpl. repeat split; auto.
    apply load_in_bounds; lia.
  - cbn [AudioConverter.convert].
    assert (Hx : load v from sizeof_T
                 = Some (take (Z.to_nat sizeof_T) (drop (Z.to_nat from) v)))
      by (apply load_in_bounds; nia).
    assert (Hrest : load v (from + sizeof_T) (Z.of_nat count * sizeof_T)
                    = Some (take (Z.to_nat (Z.of_nat count * sizeof_T))
                              (drop (Z.to_nat (from + sizeof_T)) v)))
      by (apply load_in_bounds; nia).
    rewrite Hx. cbn [mbind option_bind].
    set (x := take (Z.to_nat sizeof_T) (drop (Z.to_nat from) v)) in *.
    assert (Hxs : vsize x = sizeof_T) by (eapply load_length; exact Hx).
    pose proof (cast_size x Hxs) as Hcs.
    destruct (store v to (cast x)) as [v1|] eqn:Hst;
      [|rewrite store_in_bounds in Hst by nia; discriminate].
    cbn [mbind option_bind].
    pose proof (store_vsize _ _ _ _ Hst) as Hv1.
    (* the rest of the source is untouched by the store *)
    assert (Hrest1 : load v1 (from + sizeof_T) (Z.of_nat count * sizeof_T)
                     = load v (from + sizeof_T) (Z.of_nat count * sizeof_T)).
    { apply BufferWindow.load_ext; try nia.
      intros i Hi. eapply store_lookup_outside; [exact Hst|]. nia. }
    rewrite Hrest in Hrest1.
    destruct (IH (to + sizeof_U) (from + sizeof_T) v1 _
                ltac:(lia) ltac:(nia) ltac:(nia) Hrest1)
      as (v' & Hconv & Hv' & Hout & Hkeep).
    exists v'. split; [exact Hconv|]. split; [lia|]. split.
    + (* the first converted sample is still where it was stored *)
      assert (Hfirst : load v' to sizeof_U = Some (cast x)).
      { rewrite <- Hcs.
        transitivity (load v1 to (vsize (cast x)));
          [|eapply load_store_same; exact Hst].
        apply BufferWindow.load_ext; try nia.
        intros i Hi. apply Hkeep. lia. }
      replace (Z.of_nat (S count) * sizeof_U)
        with (sizeof_U + Z.of_nat count * sizeof_U) by lia.
      erewrite SplitFacts.load_concat; [|exact Hfirst|exact Hout].
      f_equal. unfold samples. cbn [replicate reshape fmap list_fmap concat].
      apply load_Some in Hsrc as (_ & _ & _ & ->).
      assert (HN : Z.to_nat (Z.of_nat (S count) * sizeof_T)
                   = (Z.to_nat sizeof_T
                      + Z.to_nat (Z.of_nat count * sizeof_T))%nat) by nia.
      rewrite HN. f_equal.
      * (* the first sample of the source *)
        subst x. rewrite take_take. do 2 f_equal. lia.
      * (* the remaining samples *)
        rewrite <- take_drop_commute, drop_drop.
        replace (Z.to_nat from + Z.to_nat sizeof_T)%nat
          with (Z.to_nat (from + sizeof_T)) by lia.
        reflexivity.
    + intros i Hi. rewrite Hkeep by nia.
      eapply store_lookup_outside; [exact Hst|]. nia.
Qed.

(** A request served behind the committed region, in one form for both
    branches: zero bytes are appended as needed and the window starts where
    the committed region ends. *)
Lemma acquire_behind b n :
  in_range b -> contained b -> m_offset b < n ->
  m_offset b + m_size b + n <= SizeT.max_size ->
  exists k : nat,
    acquire n b
    = (m_offset b + m_size b,
       mk (m_buffer b ++ replicate k x00) (m_size b) (m_offset b)
          (m_offset b + m_size b)) /\
    m_offset b + m_size b + n <= vsize (m_buffer b ++ replicate k x00).
Proof.
  intros Hr Hin Hlt Hsum. range_facts.
  pose proof Hr as (Hs & Ho & Ha & Hc).
  unfold contained, capacity, size, SizeT.in_range in *.
  destruct (Z_le_gt_dec n (vsize (m_buffer b) - m_offset b - m_size b)).
  - exists 0%nat. rewrite acquire_back by (assumption || lia).
    simpl. rewrite app_nil_r. split; [destruct b; reflexivity|lia].
  - eexists. rewrite acquire_grow by (assumption || lia).
    split; [reflexivity|].
    rewrite vsize_app. unfold vsize in *. rewrite length_replicate. lia.
Qed.

(** X9.  [process] on a buffer holding [k] whole samples of [T], when the
    room for the [k] samples of [U] is found behind the committed region:
    it succeeds, returns the configuration it was given, and leaves a
    buffer whose committed bytes are the [k] input samples, each converted,
    in order; they start where the input ended. *)
Theorem process_converts_each_sample (conf : AudioConf) b (k : nat) :
  in_range b -> contained b ->
  size b = Z.of_nat k * sizeof_T ->
  size b * sizeof_U < SizeT.modulus ->
  m_offset b < Z.of_nat k * sizeof_U ->
  m_offset b + size b + Z.of_nat k * sizeof_U <= SizeT.max_size ->
  exists input b',
    committed b = Some input /\
    process sizeof_T sizeof_U cast conf b = Some (conf, b') /\
    size b' = Z.of_nat k * sizeof_U /\
    data b' = data b + size b /\
    committed b' = Some (concat (cast <$> samples sizeof_T k input)).
Proof.
  intros Hr Hin Hk Hmul Hlt Hsum. range_facts.
  pose proof Hr as (Hs & Ho & Ha & Hc).
  unfold size, data in *.
  assert (Hn : SizeT.wrap (m_size b * sizeof_U) / sizeof_T
               = Z.of_nat k * sizeof_U).
  { unfold SizeT.in_range in *.
    rewrite SizeTFacts.wrap_small by nia.
    rewrite Hk.
    replace (Z.of_nat k * sizeof_T * sizeof_U)
      with (Z.of_nat k * sizeof_U * sizeof_T) by lia.
    apply Z.div_mul. lia. }
  assert (Hcount : Z.to_nat (m_size b / sizeof_T) = k).
  { rewrite Hk, Z.div_mul by lia. lia. }
  destruct (acquire_behind b (Z.of_nat k * sizeof_U) Hr Hin Hlt Hsum)
    as (z & Hacq & Hfit).
  unfold contained, capacity, size, SizeT.in_range in *.
  assert (Hinput : committed b
                   = Some (take (Z.to_nat (m_size b))
                                (drop (Z.to_nat (m_offset b)) (m_buffer b))))
    by (apply load_in_bounds; lia).
  assert (Hsrc : load (m_buffer b ++ replicate z x00) (m_offset b)
                      (Z.of_nat k * sizeof_T)
                 = Some (take (Z.to_nat (m_size b))
                              (drop (Z.to_nat (m_offset b)) (m_buffer b)))).
  { rewrite load_app_l by lia. rewrite <- Hk. apply load_in_bounds; lia. }
  destruct (convert_disjoint k (m_offset b + m_size b) (m_offset b)
              (m_buffer b ++ replicate z x00) _
              ltac:(lia) ltac:(lia) ltac:(lia) Hsrc)
    as (v' & Hconv & Hv' & Hout & _).
  eexists. eexists. split; [exact Hinput|].
  unfold process, size, data. rewrite Hn, Hacq.
  cbn [m_size m_offset m_buffer]. rewrite Hcount, Hconv.
  cbn [mbind option_bind m_size set_buffer]. rewrite Hn.
  split; [reflexivity|].
  unfold committed, commit, size, data. cbn.
  repeat split. exact Hout.
Qed.

End Process.

Lemma process_converts_each_sample_witness :
  exists b',
    process 2 4 widen tt two_samples = Some (tt, b') /\
    committed b' = Some [x01; x02; x01; x02; x03; x04; x03; x04].
Proof.
  destruct (process_converts_each_sample 2 4 widen
              ltac:(lia) ltac:(lia)
              ltac:(intros x Hx; unfold widen; rewrite vsize_app; lia)
              tt two_samples 2)
    as (input & b' & Hin & Hp & _ & _ & Hc).
  - concrete.
  - concrete.
  - reflexivity.
  - concrete.
  - concrete.
  - concrete.
  - exists b'. split; [exact Hp|].
    vm_compute in Hin. injection Hin as <-. exact Hc.
Defined.

End AudioConverterFacts.

(** ** More about negotiation and linking *)

Module NodeLinksFacts.

Import Node NodeLinks NodeFacts.

Section Negotiation.
Context {Cap R : Type} (intersect : Cap -> Cap -> R) (isValid : R -> bool).

Abbreviation canIntersect := (canIntersect intersect isValid).
Abbreviation link := (link intersect isValid).
Abbreviation linkable := (linkable intersect isValid).



(** [link] is an update of [prev] guarded by [linkable]. *)
Lemma link_eq prev next (h : gmap nat (Node.t Cap)) :
  link prev next h
  = if linkable h prev next
    then x ← h !! prev; Some (<[prev := set_next (Some next) x]> h)
    else None.
Proof.
  unfold Node.link, NodeLinks.linkable.
  destruct (h !! prev) as [x|]; simpl; [|reflexivity].
  destruct (h !! next) as [y|]; simpl; [|reflexivity].
  destruct (outCaps (class_of x)) as [out|]; simpl; [|reflexivity].
  destruct (inCaps (class_of y)) as [inc|]; simpl; [|reflexivity].
  destruct (bool_decide (length out = length inc) && canIntersect out inc);
    reflexivity.
Qed.

(** Setting a successor changes no class. *)
Lemma class_after_set_next (h : gmap nat (Node.t Cap)) p x s a :
  h !! p = Some x ->
  class_of <$> (<[p := set_next s x]> h) !! a = class_of <$> h !! a.
Proof.
  intros Hp. destruct (decide (p = a)) as [->|Hne].
  - rewrite lookup_insert_eq, Hp. reflexivity.
  - rewrite lookup_insert_ne by exact Hne. reflexivity.
Qed.

Lemma linkable_after_set_next (h : gmap nat (Node.t Cap)) p x s a b :
  h !! p = Some x ->
  linkable (<[p := set_next s x]> h) a b = linkable h a b.
Proof.
  intros Hp. unfold NodeLinks.linkable.
  rewrite !(class_after_set_next h p x s) by exact Hp. reflexivity.
Qed.

Lemma link_Some prev next (h h' : gmap nat (Node.t Cap)) :
  link prev next h = Some h' ->
  exists x, h !! prev = Some x /\ linkable h prev next = true /\
            h' = <[prev := set_next (Some next) x]> h.
Proof.
  rewrite link_eq. destruct (linkable h prev next); [|discriminate].
  destruct (h !! prev) as [x|]; [|discriminate].
  simpl. intros [= <-]. eauto.
Qed.

(** X11.  A stage has one successor: linking [prev] again replaces the
    successor recorded before, with the result of linking it in the first
    place; in particular, repeating a link changes nothing. *)
Theorem relink_replaces prev n1 n2 (h h1 : gmap nat (Node.t Cap)) :
  link prev n1 h = Some h1 ->
  link prev n2 h1 = link prev n2 h /\
  link prev n1 h1 = Some h1.
Proof.
  intros H. pose proof H as H'.
  apply link_Some in H as (x & Hx & Hl & ->).
  assert (Hre : forall n,
             link prev n (<[prev := set_next (Some n1) x]> h)
             = link prev n h).
  { intros n. rewrite !link_eq.
    rewrite linkable_after_set_next by exact Hx.
    destruct (linkable h prev n); [|reflexivity].
    rewrite lookup_insert_eq, Hx. simpl.
    rewrite insert_insert_eq. reflexivity. }
  split; [apply Hre|]. rewrite Hre. exact H'.
Qed.

(** X12.  Whether two stages can be linked does not depend on the links
    made so far: after any successful [link], [link c d] exists exactly if
    it existed before. *)
Theorem link_feasibility_stable a b c d (h h1 : gmap nat (Node.t Cap)) :
  link a b h = Some h1 ->
  (is_Some (link c d h1) <-> is_Some (link c d h)).
Proof.
  intros H. apply link_Some in H as (x & Hx & Hl & ->).
  rewrite !link_eq, linkable_after_set_next by exact Hx.
  destruct (linkable h c d) eqn:E.
  - destruct (decide (a = c)) as [->|Hne].
    + rewrite lookup_insert_eq, Hx. simpl. split; eauto.
    + rewrite lookup_insert_ne by exact Hne.
      destruct (h !! c); simpl; split; eauto;
        intros [? ?]; discriminate.
  - reflexivity.
Qed.

(** X13.  Links from different stages do not interfere: made in either
    order they give the same store, or fail alike. *)
Theorem links_commute p1 n1 p2 n2 (h : gmap nat (Node.t Cap)) :
  p1 <> p2 ->
  (link p1 n1 h ≫= link p2 n2) = (link p2 n2 h ≫= link p1 n1).
Proof.
  intros Hne. rewrite (link_eq p1 n1 h), (link_eq p2 n2 h).
  destruct (h !! p1) as [x1|] eqn:H1; destruct (h !! p2) as [x2|] eqn:H2;
    destruct (linkable h p1 n1) eqn:L1; destruct (linkable h p2 n2) eqn:L2;
    simpl; rewrite ?link_eq;
    rewrite ?linkable_after_set_next by eassumption;
    rewrite ?L1, ?L2, ?H1, ?H2; simpl;
    rewrite ?lookup_insert_ne by congruence;
    rewrite ?H1, ?H2; simpl; try reflexivity.
  f_equal. apply insert_insert_ne. congruence.
Qed.

End Negotiation.

End NodeLinksFacts.

Module NodeLinksExamplesFacts.

Import Node NodeLinks AudioCaps NodeExamples.

Lemma relink_replaces_witness :
  link intersect isValid 1 2
    (<[1%nat := Node.mk source_class (Some 2%nat)]> two_stages)
  = Some (<[1%nat := Node.mk source_class (Some 2%nat)]> two_stages).
Proof.
  apply (NodeLinksFacts.relink_replaces intersect isValid 1 2 2 two_stages).
  reflexivity.
Defined.

Lemma link_feasibility_stable_witness :
  is_Some (link intersect isValid 3 2
             (<[1%nat := Node.mk source_class (Some 2%nat)]> three_stages))
  <-> is_Some (link intersect isValid 3 2 three_stages).
Proof.
  apply (NodeLinksFacts.link_feasibility_stable intersect isValid 1 2 3 2
           three_stages).
  reflexivity.
Defined.

Lemma links_commute_witness :
  (link intersect isValid 1 2 three_stages ≫= link intersect isValid 3 2)
  = (link intersect isValid 3 2 three_stages ≫= link intersect isValid 1 2).
Proof.
  apply (NodeLinksFacts.links_commute intersect isValid 1 2 3 2 three_stages).
  lia.
Defined.

End NodeLinksExamplesFacts.

(** ** Properties of [AlsaPassthroughSink] *)

Module AlsaPassthroughSinkFacts.

Import AlsaPassthroughSink.

(** X14.  Every channel that [AEChannelToALSAChannel] maps to an ALSA
    position (anything but [SND_CHMAP_UNKNOWN]) is mapped back to itself by
    [ALSAChannelToAEChannel]. *)
Theorem AE_to_ALSA_round_trip c :
  AEChannelToALSAChannel c <> SND_CHMAP_UNKNOWN ->
  ALSAChannelToAEChannel (AEChannelToALSAChannel c) = c.
Proof.
  destruct c; intros H; try reflexivity; exfalso; apply H; reflexivity.
Qed.

Lemma AE_to_ALSA_round_trip_witness :
  ALSAChannelToAEChannel (AEChannelToALSAChannel AE_CH_BLOC) = AE_CH_BLOC.
Proof.
  apply (AE_to_ALSA_round_trip AE_CH_BLOC). vm_compute. discriminate.
Defined.

(** X15.  Every ALSA position that [ALSAChannelToAEChannel] recognises
    (maps to anything but [AE_CH_UNKNOWN1]) is mapped back to itself by
    [AEChannelToALSAChannel]; every other value, whatever it is, becomes
    [AE_CH_UNKNOWN1] and from there [SND_CHMAP_UNKNOWN]. *)
Theorem ALSA_to_AE_round_trip a :
  (ALSAChannelToAEChannel a <> AE_CH_UNKNOWN1 ->
   AEChannelToALSAChannel (ALSAChannelToAEChannel a) = a) /\
  (ALSAChannelToAEChannel a = AE_CH_UNKNOWN1 ->
   AEChannelToALSAChannel (ALSAChannelToAEChannel a) = SND_CHMAP_UNKNOWN).
Proof.
  split.
  - unfold ALSAChannelToAEChannel.
    repeat match goal with
           | |- context [?x =? ?y] =>
               destruct (Z.eqb_spec x y) as [->|?]; [intros _; reflexivity|]
           end.
    intros H. exfalso. apply H. reflexivity.
  - intros ->. reflexivity.
Qed.


Lemma append_cons a (s t : string) :
  (String a s ++ t)%string = String a (s ++ t)%string.
Proof. reflexivity. Qed.

Lemma append_assoc (s1 s2 s3 : string) :
  ((s1 ++ s2) ++ s3)%string = (s1 ++ (s2 ++ s3))%string.
Proof.
  induction s1 as [|d s1 IH]; [reflexivity|].
  rewrite !append_cons, IH. reflexivity.
Qed.

Lemma substring_0_0 s : substring 0 0 s = EmptyString.
Proof. destruct s; reflexivity. Qed.

(** Testing a name for a prefix gives the same answer after a separator
    that does not occur in the prefix, and anything else, is appended. *)
Lemma prefix_test_append (p name : string) sep tail :
  has_char sep p = false ->
  String.eqb (substring 0 (String.length p) (name ++ String sep tail)) p
  = String.eqb (substring 0 (String.length p) name) p.
Proof.
  revert name. induction p as [|c p IH]; intros name Hsep.
  - cbn [String.length]. rewrite !substring_0_0. reflexivity.
  - cbn [has_char] in Hsep.
    destruct (Ascii.eqb c sep) eqn:Hc; [discriminate|].
    destruct name as [|a name].
    + change (EmptyString ++ String sep tail)%string with (String sep tail).
      cbn [String.length substring String.eqb].
      rewrite Ascii.eqb_sym, Hc. reflexivity.
    + rewrite append_cons. cbn [String.length substring String.eqb].
      destruct (Ascii.eqb a c); [|reflexivity].
      apply IH. exact Hsep.
Qed.

(** X17.  Appending parameters to a device name never changes the type
    the name is classified as: the type is read off the first characters,
    and the separator [AppendParams] inserts is not one of them, however
    short the name. *)
Theorem AEDeviceTypeFromName_AppendParams name params :
  AEDeviceTypeFromName (AppendParams name params) = AEDeviceTypeFromName name.
Proof.
  unfold AppendParams. rewrite append_assoc, append_cons.
  change (EmptyString ++ params)%string with params.
  unfold AEDeviceTypeFromName.
  set (sep := if negb (has_char ":"%char name) then ":"%char else ","%char).
  assert (Hsep : forall p,
             p = "hdmi"%string \/ p = "iec958"%string \/ p = "spdif"%string ->
             has_char sep p = false).
  { intros p Hp. subst sep.
    destruct (negb (has_char ":"%char name));
      destruct Hp as [->|[->| ->]]; reflexivity. }
  pose proof (prefix_test_append "hdmi" name sep params
                (Hsep _ (or_introl eq_refl))) as H4.
  pose proof (prefix_test_append "iec958" name sep params
                (Hsep _ (or_intror (or_introl eq_refl)))) as H6.
  pose proof (prefix_test_append "spdif" name sep params
                (Hsep _ (or_intror (or_intror eq_refl)))) as H5.
  cbn [String.length] in H4, H5, H6.
  rewrite H4, H5, H6. reflexivity.
Qed.

Section Sink.
Context {Members : Type}.

(** X18.  After [deinit] the sink holds no device handle, and every
    further [deinit], [Stop] or [Drain] does nothing at all: no call is
    made on the closed handle.  The one [deinit] that closes the device
    drops the pending samples first. *)
Theorem deinit_closes_once (s : AlsaPassthroughSink.t Members) :
  m_pcm (fst (deinit s)) = None /\
  deinit (fst (deinit s)) = (fst (deinit s), []) /\
  Stop (fst (deinit s)) = [] /\
  Drain (fst (deinit s)) = [] /\
  (forall pcm, m_pcm s = Some pcm ->
     snd (deinit s) = [snd_pcm_drop pcm; snd_pcm_close pcm]).
Proof.
  destruct s as [[pcm|] rest]; simpl; repeat split; try reflexivity.
  - intros pcm' [= <-]. reflexivity.
  - intros pcm' [=].
Qed.
End Sink.

End AlsaPassthroughSinkFacts.

(** ** Properties of [AlsaSink::writeSimple] *)

Module AlsaSinkWriteFacts.

Import AlsaSinkWrite.

(** Every call of the loop offers what is left: the block ends where the
    frames still to be written end. *)
Lemma writeSimple_loop_offers_bounded (n : nat) :
  forall answers ptr frameCount lo hi trace,
  (length answers <= n)%nat ->
  lo <= ptr -> ptr + 4 * frameCount = hi ->
  writeSimple_loop answers ptr frameCount = Some trace ->
  Forall (fun e => match e with
                   | snd_pcm_writei p f => 0 < f /\ lo <= p /\ p + 4 * f = hi
                   | _ => True
                   end) trace.
Proof.
  induction n as [|n IH];
    intros answers ptr frameCount lo hi trace Hlen Hlo Hhi H.
  { destruct answers; [|simpl in Hlen; lia]. simpl in H.
    destruct (frameCount >? 0); [discriminate|].
    injection H as <-. constructor. }
  destruct answers as [|ret answers]; simpl in H.
  - destruct (frameCount >? 0); [discriminate|].
    injection H as <-. constructor.
  - destruct (frameCount >? 0) eqn:Hpos; [|injection H as <-; constructor].
    assert (Hcall : 0 < frameCount /\ lo <= ptr /\ ptr + 4 * frameCount = hi)
      by lia.
    destruct (ret =? 0) eqn:Hz.
    { injection H as <-. repeat constructor; lia. }
    destruct (ret <? 0) eqn:Hneg.
    + destruct answers as [|ret' answers]; [discriminate|].
      destruct (ret' <? 0) eqn:Hneg'.
      { injection H as <-. repeat constructor; lia. }
      destruct (writeSimple_loop answers (ptr + ret' * 4) (frameCount - ret'))
        as [rest|] eqn:Hrest; [|discriminate].
      simpl in H. injection H as <-.
      apply (IH answers) with (lo := lo) (hi := hi) in Hrest;
        [|simpl in Hlen; lia|lia|lia].
      repeat (constructor; [try exact I; lia|]).
      apply Forall_app. split; [|exact Hrest].
      destruct ((ret' >? 0) && (ret' <? frameCount)); repeat constructor.
    + destruct (writeSimple_loop answers (ptr + ret * 4) (frameCount - ret))
        as [rest|] eqn:Hrest; [|discriminate].
      simpl in H. injection H as <-.
      apply (IH answers) with (lo := lo) (hi := hi) in Hrest;
        [|simpl in Hlen; lia|lia|lia].
      constructor; [lia|].
      apply Forall_app. split; [|exact Hrest].
      destruct ((ret >? 0) && (ret <? frameCount)); repeat constructor.
Qed.

(** X19.  Whatever ALSA answers, every block [writeSimple] offers to
    [snd_pcm_writei] is non-empty, starts at or after [samples], and ends
    exactly with the last whole 4-byte frame of the [bytesCount] bytes: it
    never offers memory outside the caller's buffer. *)
Theorem writeSimple_stays_in_buffer answers samples bytesCount trace :
  0 <= bytesCount ->
  writeSimple answers samples bytesCount = Some trace ->
  Forall (offered_within samples bytesCount) trace.
Proof.
  intros Hb H. unfold writeSimple in H.
  apply (writeSimple_loop_offers_bounded (length answers) answers samples
           (bytesCount / 4) samples (samples + 4 * (bytesCount / 4))) in H;
    [|lia|lia|lia].
  eapply Forall_impl; [exact H|].
  intros [p f| | | |]; simpl; auto.
  intros (Hf & Hp & He).
  pose proof (Z.mul_div_le bytesCount 4 ltac:(lia)). lia.
Qed.

Lemma writeSimple_stays_in_buffer_witness :
  Forall (offered_within 1000 18)
    [snd_pcm_writei 1000 4; LOG_frames_written 3 4; snd_pcm_writei 1012 1].
Proof.
  apply (writeSimple_stays_in_buffer [3; 1] 1000 18).
  - lia.
  - reflexivity.
Defined.

(** X20.  With fewer than four bytes there is no whole frame:
    [writeSimple] returns at once, without a call to ALSA and without
    waiting for any answer.  If ALSA accepts every frame offered, one call
    is all it takes. *)
Theorem writeSimple_edges answers samples bytesCount :
  (0 <= bytesCount < 4 -> writeSimple answers samples bytesCount = Some []) /\
  (4 <= bytesCount ->
   writeSimple (bytesCount / 4 :: answers) samples bytesCount
   = Some [snd_pcm_writei samples (bytesCount / 4)]).
Proof.
  unfold writeSimple. split.
  - intros Hb. rewrite Z.div_small by lia. destruct answers; reflexivity.
  - intros Hb.
    assert (Hf : 1 <= bytesCount / 4) by (apply Z.div_le_lower_bound; lia).
    cbn [writeSimple_loop].
    destruct (bytesCount / 4 >? 0) eqn:E1; [|lia].
    destruct (bytesCount / 4 =? 0) eqn:E2; [lia|].
    destruct (bytesCount / 4 <? 0) eqn:E3; [lia|].
    rewrite Z.sub_diag, Z.ltb_irrefl.
    destruct answers; reflexivity.
Qed.

End AlsaSinkWriteFacts.

(** ** Properties of [GetParamFromName] *)

Module AlsaDeviceNamesFacts.

Import AlsaPassthroughSink AlsaDeviceNames AlsaPassthroughSinkFacts.

Lemma length_append (a b : string) :
  String.length (a ++ b) = (String.length a + String.length b)%nat.
Proof.
  induction a as [|c a IH]; [reflexivity|].
  rewrite append_cons. cbn [String.length]. rewrite IH. reflexivity.
Qed.

Lemma append_nil_r (a : string) : (a ++ EmptyString)%string = a.
Proof.
  induction a as [|c a IH]; [reflexivity|].
  rewrite append_cons, IH. reflexivity.
Qed.

Lemma substring_skip (a b : string) m :
  substring (String.length a) m (a ++ b) = substring 0 m b.
Proof.
  induction a as [|c a IH]; [reflexivity|].
  rewrite append_cons. cbn [String.length substring]. exact IH.
Qed.

Lemma substring_prefix (v r : string) :
  substring 0 (String.length v) (v ++ r) = v.
Proof.
  induction v as [|c v IH].
  - cbn [String.length]. apply substring_0_0.
  - rewrite append_cons. cbn [String.length substring]. rewrite IH.
    reflexivity.
Qed.

Lemma find_first_of_skip chars (a b : string) :
  find_first_of chars (a ++ b) (String.length a)
  = (fun i => String.length a + i)%nat <$> find_first_of chars b 0.
Proof.
  induction a as [|c a IH].
  - cbn [String.length]. change (EmptyString ++ b)%string with b.
    destruct (find_first_of chars b 0); reflexivity.
  - rewrite append_cons. cbn [String.length find_first_of]. rewrite IH.
    destruct (find_first_of chars b 0); reflexivity.
Qed.

Lemma find_first_of_value chars (v r : string) :
  (forall c, has_char c chars = true -> has_char c v = false) ->
  find_first_of chars (v ++ r) 0
  = (fun i => String.length v + i)%nat <$> find_first_of chars r 0.
Proof.
  intros Hv. induction v as [|c v IH].
  - change (EmptyString ++ r)%string with r. cbn [String.length].
    destruct (find_first_of chars r 0); reflexivity.
  - rewrite append_cons. cbn [find_first_of String.length].
    destruct (has_char c chars) eqn:Hc.
    + specialize (Hv c Hc). cbn [has_char] in Hv.
      rewrite Ascii.eqb_refl in Hv. discriminate.
    + rewrite IH.
      * destruct (find_first_of chars r 0); reflexivity.
      * intros d Hd. specialize (Hv d Hd). cbn [has_char] in Hv.
        destruct (Ascii.eqb c d); [discriminate|exact Hv].
Qed.

(** X21.  In a name [pre param=value rest], where the first [param=] is the
    one after [pre], the value holds no comma or quote, and [rest] is empty
    or starts with one, [GetParamFromName] returns exactly [value]; when
    [param=] does not occur in the name at all it returns the empty
    string. *)
Theorem GetParamFromName_value (pre param value rest : string) :
  let name := (pre ++ (param ++ "=") ++ value ++ rest)%string in
  (index 0 (param ++ "=")%string name = Some (String.length pre) ->
   (forall c, has_char c delimiters = true -> has_char c value = false) ->
   ends_value rest ->
   GetParamFromName name param = value) /\
  (forall other : string,
     index 0 (param ++ "=")%string other = None ->
     GetParamFromName other param = EmptyString).
Proof.
  intros name. split.
  - intros Hfind Hvalue Hrest. unfold GetParamFromName. rewrite Hfind.
    set (head := (pre ++ (param ++ "="))%string).
    assert (Hname : name = (head ++ (value ++ rest))%string)
      by (subst name head; symmetry; apply append_assoc).
    assert (Hhead : (String.length pre + String.length param + 1)%nat
                    = String.length head).
    { subst head. rewrite !length_append. cbn [String.length]. lia. }
    cbv zeta. rewrite Hhead, Hname.
    rewrite find_first_of_skip, find_first_of_value by exact Hvalue.
    destruct rest as [|d rest].
    + cbn [find_first_of fmap option_fmap option_map].
      rewrite substring_skip, append_nil_r, !length_append.
      replace (String.length head + String.length value - String.length head)%nat
        with (String.length value) by lia.
      rewrite <- (append_nil_r value) at 2. apply substring_prefix.
    + cbn [ends_value] in Hrest. cbn [find_first_of]. rewrite Hrest.
      cbn [fmap option_fmap option_map].
      rewrite substring_skip.
      replace (String.length head + (String.length value + 0)
               - String.length head)%nat
        with (String.length value) by lia.
      apply substring_prefix.
  - intros other Hnone. unfold GetParamFromName. rewrite Hnone. reflexivity.
Qed.

(** The example of the source's own comment. *)
Lemma GetParamFromName_value_witness :
  GetParamFromName "hdmi:CARD=x,DEV=y" "CARD" = "x"%string.
Proof.
  apply (proj1 (GetParamFromName_value "hdmi:" "CARD" "x" ",DEV=y")).
  - reflexivity.
  - intros c Hc. cbn [has_char].
    destruct (Ascii.eqb_spec "x"%char c) as [E|E]; [|reflexivity].
    subst c. vm_compute in Hc. discriminate.
  - reflexivity.
Defined.

End AlsaDeviceNamesFacts.
